(** * Catchment delineation over the REC river network (gistools)

    A shallow embedding of [gistools/rec.py]: the upstream trace
    [find_upstream], the catchment extraction [extract_catch], the
    aggregation [agg_catch] and the driver [catch_delineate], with the
    topology modifications the driver applies to the stream table.
    [gistools/catch_del.py] has the same extraction, aggregation and
    loop of modifications under the names [extract_rec_catch],
    [agg_rec_catch] and [rec_catch_del]; its extraction and aggregation
    are embedded in module [CatchDel].

    Data frames are lists of rows (order and repeated rows matter to
    [pd.concat] and [merge]); a polygon is the finite set of unit cells
    it covers, so that [dissolve] is set union and the area is the number
    of cells.  Reach ids and node ids are integers, with the cast to
    int32 written out where the code casts.  A [while] loop runs under a
    bound on its rounds, and a run that uses the bound up is [OutOfFuel].

    The first part gives the definitions: the embedding, function by
    function, then the same run with the data frames as objects of a
    store (module [InPlace]), and the relations the theorems are stated
    with.  The second part has the theorems. *)

From stdpp Require Import base list gmap sets relations sorting strings.
From Stdlib Require Import ZArith Lia.

Local Open Scope Z_scope.
Set Warnings "-clear-no-such-hyp".

(** ** Rows of the three input tables *)

(** The attribute columns of the REC streams layer. *)
Record Reach := mkReach { NZREACH : Z; NZFNODE : Z; NZTNODE : Z }.

Abbreviation Point := (Z * Z)%type.
Abbreviation Polygon := (gset (Z * Z)).

(** A row of the streams layer.  Of its line geometry the code only ever
    takes the centroid ([rec_streams.centroid]), which is what is kept. *)
Record Stream := mkStream { attrs : Reach; centroid : Point }.

(** A row of the catchments layer. *)
Record Catch := mkCatch { catch_NZREACH : Z; catch_geometry : Polygon }.

(** A row of the sites layer. *)
Record Site := mkSite { site : Z; site_geometry : Point }.

#[global] Instance Reach_eq_dec : EqDecision Reach.
Proof. solve_decision. Defined.
#[global] Instance Stream_eq_dec : EqDecision Stream.
Proof. solve_decision. Defined.
#[global] Instance Site_eq_dec : EqDecision Site.
Proof. solve_decision. Defined.

(** ** Outcomes *)

(** [TypeError] and [ValueError] are raised by the code of [rec.py];
    [DataLoadError] stands for a source that cannot be loaded as the
    table expected (section 7 of the specification). *)
Inductive exn := TypeError | ValueError | DataLoadError.

(** [OutOfFuel]: a [while] loop was still running when the bound on its
    iterations was used up. *)
Inductive result (A : Type) :=
| Ok (a : A)
| Raise (e : exn)
| OutOfFuel.
Arguments Ok {A} a.
Arguments Raise {A} e.
Arguments OutOfFuel {A}.

(** [numpy]'s [astype('int32')]: the value modulo 2^32, signed. *)
Definition int32 (z : Z) : Z := (z + 2 ^ 31) `mod` 2 ^ 32 - 2 ^ 31.

Definition in_int32 (z : Z) : Prop := - 2 ^ 31 ≤ z < 2 ^ 31.

(** [Series.unique()]: the distinct values in order of first appearance. *)
Fixpoint unique (l : list Z) : list Z :=
  match l with
  | [] => []
  | x :: l' => x :: filter (λ y, y ≠ x) (unique l')
  end.

(** ** find_upstream *)

(** What a caller can pass as [nzreach]. *)
Inductive nzreach_arg :=
| PyList (l : list Z)
| NdArray (l : list Z)
| Series (l : list Z)
| PyTuple (l : list Z)
| PyInt (i : Z).

(** [isinstance(nzreach, (list, np.ndarray, pd.Series))] *)
Definition reach_ids (a : nzreach_arg) : option (list Z) :=
  match a with
  | PyList l | NdArray l | Series l => Some l
  | PyTuple _ | PyInt _ => None
  end.

(** A row of the table [find_upstream] returns: a reach and the start id
    it was traced from. *)
Record UpRow := mkUpRow { start : Z; up_reach : Reach }.

#[global] Instance UpRow_eq_dec : EqDecision UpRow.
Proof. solve_decision. Defined.

(** [rec[rec.NZREACH == i]] *)
Definition select_reach (rec : list Reach) (i : Z) : list Reach :=
  filter (λ r, NZREACH r = i) rec.

(** [rec[rec.NZTNODE.isin(rows.NZFNODE)]] *)
Definition flowing_into (rec rows : list Reach) : list Reach :=
  filter (λ r, NZTNODE r ∈ NZFNODE <$> rows) rec.

(** The [while not up1.empty] loop. *)
Fixpoint while_up (fuel : nat) (rec reach1 up1 : list Reach) : option (list Reach) :=
  match up1 with
  | [] => Some reach1
  | _ :: _ =>
      match fuel with
      | O => None
      | S fuel' => while_up fuel' rec (reach1 ++ up1) (flowing_into rec up1)
      end
  end.

(** One pass of the [for i in nzreach] loop.  After the [while] loop,
    [reach1.loc[:, 'start'] = i] sets a new column to a scalar, which
    pandas refuses on a frame without rows (ValueError: cannot set a
    frame with no defined index and a scalar).  [reach1] only grows in
    the loop, so it has no rows exactly when no row of the table carries
    the id [i]. *)
Definition trace_from (fuel : nat) (rec : list Reach) (i : Z) : result (list UpRow) :=
  let reach1 := select_reach rec i in
  let up1 := flowing_into rec reach1 in
  match while_up fuel rec reach1 up1 with
  | None => OutOfFuel
  | Some [] => Raise ValueError
  | Some reach1 => Ok (mkUpRow i <$> reach1)
  end.

(** The [for i in nzreach] loop: the ids are traced one after the other,
    and the first pass that raises or does not return ends the run. *)
Fixpoint trace_all (fuel : nat) (rec : list Reach) (nzreach : list Z) : result (list (list UpRow)) :=
  match nzreach with
  | [] => Ok []
  | i :: nzreach' =>
      match trace_from fuel rec i with
      | Ok reach1 =>
          match trace_all fuel rec nzreach' with
          | Ok reaches_lst => Ok (reach1 :: reaches_lst)
          | Raise e => Raise e
          | OutOfFuel => OutOfFuel
          end
      | Raise e => Raise e
      | OutOfFuel => OutOfFuel
      end
  end.

(** [pd.concat] raises ValueError when it is given no frame. *)
Definition find_upstream (fuel : nat) (nzreach : nzreach_arg)
    (rec_streams_shp : list Stream) : result (list UpRow) :=
  match reach_ids nzreach with
  | None => Raise TypeError
  | Some ids =>
      let rec := attrs <$> rec_streams_shp in
      match trace_all fuel rec ids with
      | Ok [] => Raise ValueError
      | Ok reaches_lst => Ok (concat reaches_lst)
      | Raise e => Raise e
      | OutOfFuel => OutOfFuel
      end
  end.

(** ** Topology modifications *)

(** The node columns a modification may set. *)
Inductive node_col := col_NZFNODE | col_NZTNODE.

Definition set_col (r : Reach) (cv : node_col * Z) : Reach :=
  match cv.1 with
  | col_NZFNODE => mkReach (NZREACH r) cv.2 (NZTNODE r)
  | col_NZTNODE => mkReach (NZREACH r) (NZFNODE r) cv.2
  end.

(** [rec_streams.loc[rec_streams['NZREACH'] == i, keys] = values] *)
Definition apply_mod (rec_streams : list Stream) (m : Z * list (node_col * Z)) : list Stream :=
  (λ s, if decide (NZREACH (attrs s) = m.1)
        then mkStream (foldl set_col (attrs s) m.2) (centroid s)
        else s) <$> rec_streams.

(** [for i in mods: ...], the dictionary in the order of its keys. *)
Definition make_mods (mods : list (Z * list (node_col * Z))) (rec_streams : list Stream) : list Stream :=
  foldl apply_mod rec_streams mods.

Definition mods : list (Z * list (node_col * Z)) :=
  [ (13053151, [(col_NZTNODE, 13055874)]);
    (13048353, [(col_NZTNODE, 13048851)]);
    (13048498, [(col_NZTNODE, 13048851)]) ].

(** ** Matching sites to reaches *)

(** [max_distance], [np.inf] by default. *)
Inductive bound := Finite (d : Z) | Inf.

(** Squared Euclidean distance; distances are compared through their
    squares. *)
Definition sqdist (p q : Point) : Z := (p.1 - q.1) ^ 2 + (p.2 - q.2) ^ 2.

Definition within (max_distance : bound) (p q : Point) : Prop :=
  match max_distance with
  | Inf => True
  | Finite d => 0 ≤ d ∧ sqdist p q ≤ d * d
  end.

#[global] Instance within_dec m p q : Decision (within m p q).
Proof. destruct m; simpl; apply _. Defined.

(** The row whose centroid is nearest to [p], the first such row when
    several are equally near. *)
Fixpoint nearest (p : Point) (rows : list Stream) : option Stream :=
  match rows with
  | [] => None
  | r :: rows' =>
      match nearest p rows' with
      | Some r' => if decide (sqdist p (centroid r') < sqdist p (centroid r)) then Some r' else Some r
      | None => Some r
      end
  end.

(** A matched site: the site's columns and the id of its reach. *)
Record SiteSeg := mkSiteSeg { seg_site : Z; seg_geometry : Point; seg_NZREACH : Z }.

(** Modelled from the spec: [kd_nearest] of [gistools.vector], which is
    not among the sources.  Nearest-centroid matching (section 4.2 (b)):
    each point is assigned to the nearest centroid whose distance does
    not exceed [max_distance]; a site with no qualifying match is
    dropped. *)
Definition kd_nearest (pts : list Site) (rec_pts1 : list Stream) (max_distance : bound) : list SiteSeg :=
  omap (λ s, r ← nearest (site_geometry s) rec_pts1;
             if decide (within max_distance (site_geometry s) (centroid r))
             then Some (mkSiteSeg (site s) (site_geometry s) (NZREACH (attrs r)))
             else None) pts.

(** ** Catchment extraction and aggregation *)

Definition area (g : Polygon) : Z := Z.of_nat (size g).

(** [GeoDataFrame.dissolve(key)]: one row per distinct key, keys in
    increasing order, the geometry the union of the group's. *)
Definition dissolve (rows : list (Z * Polygon)) : list (Z * Polygon) :=
  (λ k, (k, ⋃ (snd <$> filter (λ kg, kg.1 = k) rows))) <$> merge_sort Z.le (unique (fst <$> rows)).

(** A row of the table [extract_catch] returns: the dissolved catchment
    polygon of a reach joined to a row of the upstream table. *)
Record ReachCatch := mkReachCatch { rc_geometry : Polygon; rc_row : UpRow }.

Definition extract_catch (reaches : list UpRow) (rec_catch_shp : list Catch) : list ReachCatch :=
  let sites := int32 <$> unique (NZREACH ∘ up_reach <$> reaches) in
  let catch1 := filter (λ c, catch_NZREACH c ∈ sites) rec_catch_shp in
  let catch2 := dissolve ((λ c, (catch_NZREACH c, catch_geometry c)) <$> catch1) in
  catch2 ≫= λ kg, mkReachCatch kg.2 <$> filter (λ r, NZREACH (up_reach r) = kg.1) reaches.

(** A row of the table [agg_catch] returns. *)
Record Shed := mkShed { shed_start : Z; shed_geometry : Polygon; shed_area : Z }.

Definition agg_catch (rec_catch : list ReachCatch) : list Shed :=
  (λ kg, mkShed (int32 kg.1) kg.2 (area kg.2))
    <$> dissolve ((λ rc, (start (rc_row rc), rc_geometry rc)) <$> rec_catch).

(** ** catch_delineate *)

(** A row of the final table: the catchment of a site. *)
Record Delineation :=
  mkDelineation { out_NZREACH : Z; out_geometry : Polygon; out_area : Z; out_site : Z }.

(** [rec_shed.merge(pts_seg.drop('geometry', axis=1), on='NZREACH')] *)
Definition merge_sites (rec_shed : list Shed) (pts_seg : list SiteSeg) : list Delineation :=
  rec_shed ≫= λ sh,
    (λ s, mkDelineation (shed_start sh) (shed_geometry sh) (shed_area sh) (seg_site s))
      <$> filter (λ s, seg_NZREACH s = shed_start sh) pts_seg.

(** The site matcher [kd_nearest] is imported from [gistools.vector]; the
    driver is stated over any matcher [kd]. *)
Definition matcher := list Site → list Stream → bound → list SiteSeg.

(** Lines 159 to 178: from the tables as loaded and modified to the
    final table. *)
Definition delineate_rows (kd : matcher) (fuel : nat) (pts : list Site)
    (rec_streams : list Stream) (rec_catch : list Catch)
    (max_distance : bound) : result (list Delineation) :=
  let pts_seg := kd pts rec_streams max_distance in
  let nzreach := unique (seg_NZREACH <$> pts_seg) in
  match find_upstream fuel (NdArray nzreach) rec_streams with
  | Ok reaches =>
      let rec_catch := extract_catch reaches rec_catch in
      let rec_shed := agg_catch rec_catch in
      Ok (merge_sites rec_shed pts_seg)
  | Raise e => Raise e
  | OutOfFuel => OutOfFuel
  end.

(** [catch_delineate] on the contents of its three tables.  Simplifying
    a point geometry ([pts.geometry.simplify(1)]) leaves it as it is. *)
Definition catch_delineate (kd : matcher) (fuel : nat) (sites_shp : list Site)
    (rec_streams_shp : list Stream) (rec_catch_shp : list Catch)
    (max_distance : bound) : result (list Delineation) :=
  delineate_rows kd fuel sites_shp (make_mods mods rec_streams_shp) rec_catch_shp max_distance.

(** ** The per-site formulation *)

(** The per-site formulation of sections 2 and 4.5 of the specification:
    every matched site is traced and aggregated on its own, and the
    result is attached to the site. *)
Definition delineate_site (fuel : nat) (rec_streams : list Stream) (rec_catch_shp : list Catch)
    (seg : SiteSeg) : result (list Delineation) :=
  match find_upstream fuel (NdArray [seg_NZREACH seg]) rec_streams with
  | Ok reaches =>
      Ok ((λ sh, mkDelineation (seg_NZREACH seg) (shed_geometry sh) (shed_area sh) (seg_site seg))
            <$> agg_catch (extract_catch reaches rec_catch_shp))
  | Raise e => Raise e
  | OutOfFuel => OutOfFuel
  end.

Fixpoint delineate_sites (fuel : nat) (rec_streams : list Stream) (rec_catch_shp : list Catch)
    (pts_seg : list SiteSeg) : result (list Delineation) :=
  match pts_seg with
  | [] => Ok []
  | seg :: pts_seg' =>
      match delineate_site fuel rec_streams rec_catch_shp seg with
      | Ok d =>
          match delineate_sites fuel rec_streams rec_catch_shp pts_seg' with
          | Ok ds => Ok (d ++ ds)
          | Raise e => Raise e
          | OutOfFuel => OutOfFuel
          end
      | Raise e => Raise e
      | OutOfFuel => OutOfFuel
      end
  end.

Definition delineate_per_site (kd : matcher) (fuel : nat) (sites_shp : list Site)
    (rec_streams_shp : list Stream) (rec_catch_shp : list Catch)
    (max_distance : bound) : result (list Delineation) :=
  let rec_streams := make_mods mods rec_streams_shp in
  delineate_sites fuel rec_streams rec_catch_shp (kd sites_shp rec_streams max_distance).

(** The same outcome, the rows of a returned table in any order. *)
Definition same_outcome (a b : result (list Delineation)) : Prop :=
  match a, b with
  | Ok x, Ok y => x ≡ₚ y
  | Raise e, Raise e' => e = e'
  | OutOfFuel, OutOfFuel => True
  | _, _ => False
  end.

(** ** catch_del.py *)

(** [gistools/catch_del.py] has the extraction and the aggregation once
    more, statement for statement, under the names [extract_rec_catch]
    and [agg_rec_catch]. *)
Module CatchDel.

Definition extract_rec_catch (reaches : list UpRow) (rec_catch_shp : list Catch) : list ReachCatch :=
  let sites := int32 <$> unique (NZREACH ∘ up_reach <$> reaches) in
  let catch1 := filter (λ c, catch_NZREACH c ∈ sites) rec_catch_shp in
  let catch2 := dissolve ((λ c, (catch_NZREACH c, catch_geometry c)) <$> catch1) in
  catch2 ≫= λ kg, mkReachCatch kg.2 <$> filter (λ r, NZREACH (up_reach r) = kg.1) reaches.

Definition agg_rec_catch (rec_catch : list ReachCatch) : list Shed :=
  (λ kg, mkShed (int32 kg.1) kg.2 (area kg.2))
    <$> dissolve ((λ rc, (start (rc_row rc), rc_geometry rc)) <$> rec_catch).

End CatchDel.

(** ** The tables in memory *)

(** [catch_delineate] with the data frames as objects: the tables are
    loaded, the site geometries and the node columns are assigned in
    place, and the rest of the run works on what the frames then hold.
    [rec_catch_del] of [catch_del.py] loads and modifies the stream
    table by the same statements. *)
Module InPlace.

Inductive frame :=
| StreamFrame (rows : list Stream)
| CatchFrame (rows : list Catch)
| SiteFrame (rows : list Site).

(** The data frames alive in the interpreter, a frame being known by its
    position. *)
Abbreviation store := (list frame).

(** What a caller passes for a table: the path of a file, or a frame. *)
Inductive source := Path (file : string) | Frame (l : nat).

(** A computation on the store. *)
Definition M (A : Type) : Type := store → result A * store.

Definition ret {A} (a : A) : M A := λ σ, (Ok a, σ).

Definition bind {A B} (m : M A) (k : A → M B) : M B := λ σ,
  match m σ with
  | (Ok a, σ') => k a σ'
  | (Raise e, σ') => (Raise e, σ')
  | (OutOfFuel, σ') => (OutOfFuel, σ')
  end.

Definition lift {A} (r : result A) : M A := λ σ, (r, σ).

(** Modelled from the spec: [load_geo_data] of [gistools.util], which is
    not among the sources.  It accepts a file path or an already loaded
    collection (section 6), and what it returns is a table of its own:
    the modifications are made on a copy, never on the source
    (section 3).  A source that cannot be loaded is a [DataLoadError]. *)
Definition load_geo_data (fs : gmap string frame) (src : source) : M nat := λ σ,
  match match src with Path file => fs !! file | Frame l => σ !! l end with
  | Some f => (Ok (length σ), σ ++ [f])
  | None => (Raise DataLoadError, σ)
  end.

(** The rows of the frame at [l], read as a table of the kind expected. *)
Definition streams_at (l : nat) : M (list Stream) := λ σ,
  match σ !! l with
  | Some (StreamFrame rows) => (Ok rows, σ)
  | _ => (Raise DataLoadError, σ)
  end.

Definition catch_at (l : nat) : M (list Catch) := λ σ,
  match σ !! l with
  | Some (CatchFrame rows) => (Ok rows, σ)
  | _ => (Raise DataLoadError, σ)
  end.

Definition sites_at (l : nat) : M (list Site) := λ σ,
  match σ !! l with
  | Some (SiteFrame rows) => (Ok rows, σ)
  | _ => (Raise DataLoadError, σ)
  end.

(** Assignment into the frame at [l]. *)
Definition assign (l : nat) (f : frame) : M unit := λ σ, (Ok (), <[l := f]> σ).

(** [pts['geometry'] = pts.geometry.simplify(1)] *)
Definition simplify_geometry (pts : nat) : M unit :=
  bind (sites_at pts) (λ rows, assign pts (SiteFrame rows)).

(** [rec_streams.loc[rec_streams['NZREACH'] == i, keys] = values] *)
Definition set_loc (rec_streams : nat) (m : Z * list (node_col * Z)) : M unit :=
  bind (streams_at rec_streams) (λ rows, assign rec_streams (StreamFrame (apply_mod rows m))).

(** [for i in mods: ...] *)
Fixpoint mods_loop (rec_streams : nat) (ms : list (Z * list (node_col * Z))) : M unit :=
  match ms with
  | [] => ret ()
  | m :: ms' => bind (set_loc rec_streams m) (λ _, mods_loop rec_streams ms')
  end.

(** The three loads, the two assignments in place, then the copies that
    [rec_streams.copy()], [find_upstream] and [extract_catch] take, and
    the rest of the run on the rows. *)
Definition catch_delineate (fs : gmap string frame) (kd : matcher) (fuel : nat)
    (sites_shp rec_streams_shp rec_catch_shp : source) (max_distance : bound)
    : M (list Delineation) :=
  bind (load_geo_data fs rec_catch_shp) (λ rec_catch,
  bind (load_geo_data fs rec_streams_shp) (λ rec_streams,
  bind (load_geo_data fs sites_shp) (λ pts,
  bind (simplify_geometry pts) (λ _,
  bind (mods_loop rec_streams mods) (λ _,
  bind (load_geo_data fs (Frame rec_streams)) (λ rec_pts1,
  bind (load_geo_data fs (Frame rec_streams)) (λ rec,
  bind (load_geo_data fs (Frame rec_catch)) (λ catch0,
  bind (sites_at pts) (λ pts_rows,
  bind (streams_at rec) (λ rec_rows,
  bind (catch_at catch0) (λ catch_rows,
  lift (delineate_rows kd fuel pts_rows rec_rows catch_rows max_distance)))))))))))).

(** [σ'] has every frame of [σ] below position [n] as it was. *)
Definition extends (n : nat) (σ σ' : store) : Prop :=
  (length σ ≤ length σ')%nat ∧ ∀ l, (l < n)%nat → σ' !! l = σ !! l.

(** [m] leaves the frames below [n] alone, and what it returns
    satisfies [Q]. *)
Definition grows {A} (n : nat) (m : M A) (Q : A → Prop) : Prop :=
  ∀ σ, (n ≤ length σ)%nat → extends n σ (m σ).2 ∧ ∀ a, (m σ).1 = Ok a → Q a.

End InPlace.

(** ** Relations on the reach table, and functions of the proofs *)

(** [r'] flows into [r]: its downstream node is the upstream node of [r]. *)
Definition feeds (rec : list Reach) (r' r : Reach) : Prop :=
  r' ∈ rec ∧ NZTNODE r' = NZFNODE r.

(** The reaches from which water reaches the reach with id [i], that
    reach included. *)
Inductive upstream (rec : list Reach) (i : Z) : Reach → Prop :=
| upstream_start r : r ∈ rec → NZREACH r = i → upstream rec i r
| upstream_step r' r : feeds rec r' r → upstream rec i r → upstream rec i r'.

(** The value of [up1] after [k] rounds, [reach1.NZREACH == i] being
    round zero. *)
Definition level (rec : list Reach) (i : Z) (k : nat) : list Reach :=
  Nat.iter k (flowing_into rec) (select_reach rec i).

(** [r] lies on a cycle: following the flow from [r] leads back to [r].
    A reach whose two nodes coincide is the shortest case. *)
Definition on_cycle (rec : list Reach) (r : Reach) : Prop := tc (feeds rec) r r.

(** No reach upstream of the reach with id [i] lies on a cycle. *)
Definition acyclic_above (rec : list Reach) (i : Z) : Prop :=
  ∀ r, upstream rec i r → ¬ on_cycle rec r.

(** A path through the table, each reach flowing into the next. *)
Inductive chain (rec : list Reach) : list Reach → Prop :=
| chain_one r : chain rec [r]
| chain_cons r' r p : feeds rec r' r → chain rec (r :: p) → chain rec (r' :: r :: p).

(** [s] lies within [max_distance] of the centroid of some reach. *)
Definition near (max_distance : bound) (rec_streams : list Stream) (s : Site) : Prop :=
  Exists (λ r, within max_distance (site_geometry s) (centroid r)) rec_streams.

#[global] Instance near_dec m rows s : Decision (near m rows s).
Proof. unfold near. apply _. Defined.

(** The keys of a dissolved table: distinct, in increasing order. *)
Definition group_keys (l : list Z) : list Z := merge_sort Z.le (unique l).

(** The dissolved polygon of the catchments that carry reach id [k]. *)
Definition catchment (rec_catch_shp : list Catch) (k : Z) : Polygon :=
  ⋃ (catch_geometry <$> filter (λ c, catch_NZREACH c = k) rec_catch_shp).

(** What [agg_catch] makes of the table [extract_catch] returns on
    [reaches]: the start ids it keeps, and the polygon of each. *)
Definition shed_keys (rec_catch_shp : list Catch) (reaches : list UpRow) : list Z :=
  group_keys (start ∘ rc_row <$> extract_catch reaches rec_catch_shp).

Definition shed_geom (rec_catch_shp : list Catch) (reaches : list UpRow) (k : Z) : Polygon :=
  ⋃ (rc_geometry <$> filter (λ rc, start (rc_row rc) = k) (extract_catch reaches rec_catch_shp)).

(** [r] is a row traced from [k] whose reach has a catchment polygon. *)
Definition drained (rec_catch_shp : list Catch) (reaches : list UpRow) (k : Z) (r : UpRow) : Prop :=
  r ∈ reaches ∧ start r = k ∧ in_int32 (NZREACH (up_reach r)) ∧
  NZREACH (up_reach r) ∈ catch_NZREACH <$> rec_catch_shp.

(** The rows traced from [i], none when the trace does not return. *)
Definition traced (fuel : nat) (rec_streams : list Stream) (i : Z) : list UpRow :=
  match trace_from fuel (attrs <$> rec_streams) i with
  | Ok out => out
  | _ => []
  end.

Definition returns (fuel : nat) (rec_streams : list Stream) (i : Z) : Prop :=
  match trace_from fuel (attrs <$> rec_streams) i with
  | Ok _ => True
  | _ => False
  end.

#[global] Instance returns_dec fuel rec_streams i : Decision (returns fuel rec_streams i).
Proof. unfold returns. destruct (trace_from _ _ _); apply _. Defined.

(** How a run ends when one of its passes ends [r] without returning. *)
Definition failure {A B} (r : result A) : result B :=
  match r with
  | Raise e => Raise e
  | _ => OutOfFuel
  end.

(** The row of one site in the per-site formulation. *)
Definition site_row (fuel : nat) (rec_streams : list Stream) (rec_catch_shp : list Catch)
    (seg : SiteSeg) : Delineation :=
  mkDelineation (seg_NZREACH seg)
    (shed_geom rec_catch_shp (traced fuel rec_streams (seg_NZREACH seg)) (seg_NZREACH seg))
    (area (shed_geom rec_catch_shp (traced fuel rec_streams (seg_NZREACH seg)) (seg_NZREACH seg)))
    (seg_site seg).

(** What the three modifications of [catch_delineate] make of a row. *)
Definition corrected (s : Stream) : Stream :=
  if decide (NZREACH (attrs s) = 13053151)
  then mkStream (mkReach (NZREACH (attrs s)) (NZFNODE (attrs s)) 13055874) (centroid s)
  else if decide (NZREACH (attrs s) = 13048353 ∨ NZREACH (attrs s) = 13048498)
  then mkStream (mkReach (NZREACH (attrs s)) (NZFNODE (attrs s)) 13048851) (centroid s)
  else s.

(** The areas of the polygons of a list, added up. *)
Definition total_area (l : list Polygon) : Z := foldr (λ g a, area g + a) 0 l.

(** No two polygons of the list overlap. *)
Fixpoint pairwise_disjoint (l : list Polygon) : Prop :=
  match l with
  | [] => True
  | g :: l' => Forall (λ g', g ## g') l' ∧ pairwise_disjoint l'
  end.

(** The polygons of the rows of [rec_catch] that carry start id [k]. *)
Definition group_of (rec_catch : list ReachCatch) (k : Z) : list Polygon :=
  rc_geometry <$> filter (λ rc, start (rc_row rc) = k) rec_catch.

(** [r] is upstream of the reach with id [k] and has a catchment
    polygon. *)
Definition drains_to (rec_streams : list Stream) (rec_catch_shp : list Catch) (k : Z)
    (r : Reach) : Prop :=
  upstream (attrs <$> rec_streams) k r ∧ NZREACH r ∈ catch_NZREACH <$> rec_catch_shp.

(** ** Example tables *)

(** Reaches 1 (10 to 20), 2 (20 to 30) and 3 (25 to 30). *)
Definition three_reaches : list Stream :=
  [ mkStream (mkReach 1 10 20) (0, 0);
    mkStream (mkReach 2 20 30) (10, 0);
    mkStream (mkReach 3 25 30) (10, 10) ].

(** A single reach from node 10 to node 10. *)
Definition self_loop : list Stream := [ mkStream (mkReach 1 10 10) (0, 0) ].

(** Reach 5 reaches reach 1 along two paths, through reach 2 and
    through reaches 3 and 4. *)
Definition two_paths : list Stream :=
  [ mkStream (mkReach 1 10 11) (0, 0);
    mkStream (mkReach 2 20 10) (0, 1);
    mkStream (mkReach 3 20 30) (0, 2);
    mkStream (mkReach 4 30 10) (0, 3);
    mkStream (mkReach 5 40 20) (0, 4) ].

(** A matcher that returns the given matches, whatever the tables. *)
Definition fixed_matches (pts_seg : list SiteSeg) : matcher := λ _ _ _, pts_seg.

(** A polygon of [n] unit cells in row [y]. *)
Definition strip (n y : Z) : Polygon := list_to_set ((λ x, (x, y)) <$> seqZ 0 n).

(** ** Tactics *)

(** Decide a closed proposition by evaluation. *)
Ltac by_eval :=
  match goal with |- ?P => apply (bool_decide_unpack P) end; vm_compute; exact I.

(** Evaluate a [filter] over an explicit list whose tests are closed. *)
Ltac eval_filter :=
  repeat (rewrite filter_cons;
          first [ rewrite decide_True by by_eval
                | rewrite decide_False by by_eval ]);
  rewrite ?filter_nil.

(** * The upstream trace, level by level *)

Section Levels.
Context (rec : list Reach).

Lemma elem_of_flowing_into r' rows :
  r' ∈ flowing_into rec rows ↔ ∃ r, r ∈ rows ∧ feeds rec r' r.
Proof.
  unfold flowing_into, feeds. rewrite list_elem_of_filter, list_elem_of_fmap.
  split.
  - intros [(r & Heq & Hr) Hin]. by exists r.
  - intros (r & Hr & Hin & Heq). split; [by exists r|done].
Qed.

Lemma flowing_into_nil : flowing_into rec [] = [].
Proof.
  apply elem_of_nil_inv. intros r Hr.
  apply elem_of_flowing_into in Hr as (r0 & Hr0 & _). by apply not_elem_of_nil in Hr0.
Qed.

Lemma flowing_into_mono rows1 rows2 :
  rows1 ⊆ rows2 → flowing_into rec rows1 ⊆ flowing_into rec rows2.
Proof. intros Hsub r. rewrite !elem_of_flowing_into. naive_solver. Qed.

Lemma iter_flowing_nil n : Nat.iter n (flowing_into rec) [] = [].
Proof. induction n as [|n IH]; simpl; [done|]. by rewrite IH, flowing_into_nil. Qed.

Lemma iter_flowing_mono n rows1 rows2 :
  rows1 ⊆ rows2 →
  Nat.iter n (flowing_into rec) rows1 ⊆ Nat.iter n (flowing_into rec) rows2.
Proof. intros Hsub. induction n as [|n IH]; simpl; [done|]. by apply flowing_into_mono. Qed.

Lemma iter_flowing_empty_le n m rows :
  (n ≤ m)%nat → Nat.iter n (flowing_into rec) rows = [] →
  Nat.iter m (flowing_into rec) rows = [].
Proof.
  intros Hle Hn. replace m with ((m - n) + n)%nat by lia.
  rewrite Nat.iter_add, Hn. apply iter_flowing_nil.
Qed.

Lemma elem_of_level_0 i r : r ∈ level rec i 0 ↔ r ∈ rec ∧ NZREACH r = i.
Proof. unfold level, select_reach. simpl. rewrite list_elem_of_filter. naive_solver. Qed.

Lemma elem_of_level_S i k r' :
  r' ∈ level rec i (S k) ↔ ∃ r, r ∈ level rec i k ∧ feeds rec r' r.
Proof. unfold level. simpl. apply elem_of_flowing_into. Qed.

Lemma level_upstream i k r : r ∈ level rec i k → upstream rec i r.
Proof.
  revert r. induction k as [|k IH]; intros r.
  - rewrite elem_of_level_0. intros [??]. by apply upstream_start.
  - rewrite elem_of_level_S. intros (r0 & Hr0 & Hf). eapply upstream_step; eauto.
Qed.

Lemma upstream_level i r : upstream rec i r → ∃ k, r ∈ level rec i k.
Proof.
  induction 1 as [r ?? | r' r Hf _ [k IH]].
  - exists 0%nat. by apply elem_of_level_0.
  - exists (S k). apply elem_of_level_S. eauto.
Qed.

Lemma level_shift i k n :
  Nat.iter n (flowing_into rec) (level rec i k) = level rec i (n + k).
Proof. unfold level. by rewrite Nat.iter_add. Qed.

(** *** The loop *)

Lemma while_up_elem fuel reach1 up1 out :
  while_up fuel rec reach1 up1 = Some out →
  ∀ r, r ∈ out ↔ r ∈ reach1 ∨ ∃ n, r ∈ Nat.iter n (flowing_into rec) up1.
Proof.
  revert reach1 up1. induction fuel as [|fuel IH]; intros reach1 up1.
  - destruct up1 as [|u up1]; simpl; [|done]. intros [= <-] r. split; [auto|].
    intros [?|[n Hn]]; [done|]. rewrite iter_flowing_nil in Hn. by apply not_elem_of_nil in Hn.
  - destruct up1 as [|u up1]; simpl.
    + intros [= <-] r. split; [auto|].
      intros [?|[n Hn]]; [done|]. rewrite iter_flowing_nil in Hn. by apply not_elem_of_nil in Hn.
    + intros Hw r. rewrite (IH _ _ Hw r), elem_of_app. split.
      * intros [[?|?]|[n Hn]]; [by left|right; by exists 0%nat|].
        right. exists (S n). by rewrite Nat.iter_succ_r.
      * intros [?|[[|n] Hn]]; [by left; left|by left; right|].
        right. exists n. by rewrite Nat.iter_succ_r in Hn.
Qed.

Lemma while_up_terminates fuel n reach1 up1 :
  (n ≤ fuel)%nat → Nat.iter n (flowing_into rec) up1 = [] →
  is_Some (while_up fuel rec reach1 up1).
Proof.
  revert n reach1 up1. induction fuel as [|fuel IH]; intros n reach1 up1 Hle Hn.
  - assert (n = 0%nat) as -> by lia. simpl in Hn. subst up1. by eexists.
  - destruct up1 as [|u up1]; simpl; [by eexists|].
    destruct n as [|n]; [done|]. rewrite Nat.iter_succ_r in Hn.
    apply (IH n); [lia|done].
Qed.

Lemma while_up_bound fuel reach1 up1 out :
  while_up fuel rec reach1 up1 = Some out →
  ∃ n, (n ≤ fuel)%nat ∧ Nat.iter n (flowing_into rec) up1 = [].
Proof.
  revert reach1 up1. induction fuel as [|fuel IH]; intros reach1 up1.
  - destruct up1; simpl; [|done]. intros _. by exists 0%nat.
  - destruct up1 as [|u up1]; simpl; [intros _; exists 0%nat; split; [lia|done]|].
    intros Hw. apply IH in Hw as (n & ? & Hn). exists (S n). split; [lia|]. by rewrite Nat.iter_succ_r.
Qed.

(** *** One start id *)

Lemma select_reach_nil i : select_reach rec i = [] ↔ i ∉ NZREACH <$> rec.
Proof.
  unfold select_reach. split.
  - intros Hnil (r & -> & Hr)%list_elem_of_fmap.
    assert (r ∈ filter (λ r0, NZREACH r0 = NZREACH r) rec) as Hin
      by (by apply list_elem_of_filter).
    rewrite Hnil in Hin. by apply not_elem_of_nil in Hin.
  - intros Habs. apply elem_of_nil_inv. intros r [Hid Hr]%list_elem_of_filter.
    apply Habs, list_elem_of_fmap. by exists r.
Qed.

Lemma while_up_nil fuel reach1 up1 : while_up fuel rec reach1 up1 = Some [] → reach1 = [].
Proof.
  intros Hw. apply elem_of_nil_inv. intros r Hr.
  apply (not_elem_of_nil r), (while_up_elem _ _ _ _ Hw). by left.
Qed.

Lemma while_up_absent fuel : while_up fuel rec [] (flowing_into rec []) = Some [].
Proof. rewrite flowing_into_nil. by destruct fuel. Qed.

(** What one pass of the [for] loop gives, by the rows the [while] loop
    has gathered. *)
Lemma trace_from_Ok fuel i out :
  trace_from fuel rec i = Ok out ↔
  ∃ rows, while_up fuel rec (select_reach rec i) (flowing_into rec (select_reach rec i))
          = Some rows ∧ rows ≠ [] ∧ out = mkUpRow i <$> rows.
Proof.
  unfold trace_from. destruct (while_up _ _ _ _) as [[|r rows]|]; split; try done.
  - by intros (rows & [= <-] & ? & _).
  - intros [= <-]. by eexists.
  - by intros (rows' & [= <-] & _ & ->).
  - by intros (rows & [=] & _).
Qed.

Lemma trace_from_Raise fuel i e :
  trace_from fuel rec i = Raise e ↔ e = ValueError ∧ i ∉ NZREACH <$> rec.
Proof.
  rewrite <-select_reach_nil. unfold trace_from. split.
  - destruct (while_up _ _ _ _) as [[|r rows]|] eqn:Hw; [|done..].
    intros [= <-]. split; [done|]. by eapply while_up_nil.
  - intros [-> ->]. by rewrite while_up_absent.
Qed.

Lemma trace_from_present fuel i out : trace_from fuel rec i = Ok out → i ∈ NZREACH <$> rec.
Proof.
  intros Ht. destruct (decide (i ∈ NZREACH <$> rec)) as [|Habs]; [done|].
  assert (trace_from fuel rec i = Raise ValueError) as Hr by (by apply trace_from_Raise).
  congruence.
Qed.

Lemma trace_from_elem fuel i out :
  trace_from fuel rec i = Ok out →
  ∀ u, u ∈ out ↔ start u = i ∧ upstream rec i (up_reach u).
Proof.
  intros (rows & Hw & _ & ->)%trace_from_Ok u.
  rewrite list_elem_of_fmap. pose proof (while_up_elem _ _ _ _ Hw) as Hel.
  assert (∀ r, r ∈ rows ↔ upstream rec i r) as Hup.
  { intros r. rewrite Hel. split.
    - intros [Hr|[n Hn]].
      + by apply (level_upstream i 0).
      + apply (level_upstream i (n + 1)). by rewrite <-level_shift.
    - intros [[|k] Hk]%upstream_level; [by left|right].
      exists k. change (flowing_into rec (select_reach rec i)) with (level rec i 1).
      rewrite level_shift. by replace (k + 1)%nat with (S k) by lia. }
  split.
  - intros (r & -> & Hr). simpl. by rewrite <-Hup.
  - intros [<- Hr]. exists (up_reach u). rewrite Hup. by destruct u.
Qed.

(** The loop ends within the bound: the pass returns or raises. *)
Lemma trace_from_ends fuel n i :
  (n ≤ S fuel)%nat → level rec i n = [] → trace_from fuel rec i ≠ OutOfFuel.
Proof.
  intros Hle Hn. unfold trace_from.
  destruct (while_up_terminates fuel (n - 1) (select_reach rec i)
              (flowing_into rec (select_reach rec i))) as [rows ->]; [lia| |by destruct rows].
  change (flowing_into rec (select_reach rec i)) with (level rec i 1).
  rewrite level_shift. apply (iter_flowing_empty_le n); [lia|done].
Qed.

Lemma trace_from_terminates fuel n i :
  (n ≤ S fuel)%nat → level rec i n = [] → i ∈ NZREACH <$> rec →
  ∃ out, trace_from fuel rec i = Ok out.
Proof.
  intros Hle Hn Hi. pose proof (trace_from_ends fuel n i Hle Hn) as Hends.
  destruct (trace_from fuel rec i) as [out|e|] eqn:Ht; [by exists out| |done].
  by apply trace_from_Raise in Ht as [_ ?].
Qed.

Lemma trace_from_bound fuel i :
  trace_from fuel rec i ≠ OutOfFuel → level rec i (S fuel) = [].
Proof.
  unfold trace_from. destruct (while_up _ _ _ _) as [rows|] eqn:Hw; [|done].
  intros _. apply while_up_bound in Hw as (n & Hle & Hn).
  change (flowing_into rec (select_reach rec i)) with (level rec i 1) in Hn.
  rewrite level_shift in Hn. unfold level in *.
  apply (iter_flowing_empty_le (n + 1)); [lia|done].
Qed.

End Levels.

(** * Cycles in the reach table *)

Section Cycles.
Context (rec : list Reach).

Lemma upstream_in_rec i r : upstream rec i r → r ∈ rec.
Proof. by intros [?|?? [??] _]. Qed.

Lemma level_tc i k r' r :
  tc (feeds rec) r' r → r ∈ level rec i k → ∃ m, (k < m)%nat ∧ r' ∈ level rec i m.
Proof.
  induction 1 as [r' r Hf | r' y r Hf _ IH]; intros Hr.
  - exists (S k). split; [lia|]. apply elem_of_level_S. eauto.
  - destruct (IH Hr) as (m & Hm & Hy). exists (S m). split; [lia|].
    apply elem_of_level_S. eauto.
Qed.

Lemma cycle_levels i r :
  upstream rec i r → on_cycle rec r → ∀ n, ∃ m, (n ≤ m)%nat ∧ r ∈ level rec i m.
Proof.
  intros [k Hk]%upstream_level Hc n. induction n as [|n (m & Hle & Hm)].
  - exists k. split; [lia|done].
  - destruct (level_tc i m r r Hc Hm) as (m' & ? & ?). exists m'. split; [lia|done].
Qed.

Lemma cycle_level_nonempty i r n :
  upstream rec i r → on_cycle rec r → level rec i n ≠ [].
Proof.
  intros Hup Hc Hn. destruct (cycle_levels i r Hup Hc n) as (m & Hle & Hm).
  unfold level in *. rewrite (iter_flowing_empty_le rec n m) in Hm by done.
  by apply not_elem_of_nil in Hm.
Qed.

Lemma chain_tail a l : chain rec (a :: l) → l ≠ [] → chain rec l.
Proof. by inversion 1. Qed.

Lemma chain_tc_head x l2 y l3 : chain rec (x :: l2 ++ y :: l3) → tc (feeds rec) x y.
Proof.
  revert x. induction l2 as [|z l2 IH]; intros x Hc; simpl in *.
  - inversion Hc; subst. by apply tc_once.
  - inversion Hc; subst. eapply tc_l; [done|]. by apply IH.
Qed.

Lemma chain_tc l1 x l2 y l3 : chain rec (l1 ++ x :: l2 ++ y :: l3) → tc (feeds rec) x y.
Proof.
  induction l1 as [|a l1 IH]; simpl; [apply chain_tc_head|].
  intros Hc. apply IH. apply (chain_tail a); [done|]. by destruct l1.
Qed.

Lemma level_chain i k r :
  r ∈ level rec i k →
  ∃ p, length p = k ∧ chain rec (r :: p) ∧ Forall (upstream rec i) (r :: p).
Proof.
  revert r. induction k as [|k IH]; intros r Hr.
  - exists []. repeat split; [constructor|].
    apply Forall_singleton. by apply (level_upstream rec i 0).
  - pose proof (level_upstream _ _ _ _ Hr) as Hup.
    apply elem_of_level_S in Hr as (r0 & Hr0 & Hf).
    destruct (IH _ Hr0) as (p & Hlen & Hc & Hall).
    exists (r0 :: p). repeat split; [simpl; lia|by constructor|by constructor].
Qed.

Lemma repeated_split (l : list Reach) :
  ¬ NoDup l → ∃ x l1 l2 l3, l = l1 ++ x :: l2 ++ x :: l3.
Proof.
  induction l as [|a l IH]; intros Hnd; [destruct Hnd; constructor|].
  destruct (decide (a ∈ l)) as [Hin|Hnin].
  - apply list_elem_of_split in Hin as (l2 & l3 & ->). by exists a, [], l2, l3.
  - destruct IH as (x & l1 & l2 & l3 & ->).
    { intros Hl. apply Hnd. by constructor. }
    by exists x, (a :: l1), l2, l3.
Qed.

(** With no cycle upstream of [i], a path of upstream reaches repeats no
    reach and so is no longer than the table: the levels run dry. *)
Lemma acyclic_level_empty i : acyclic_above rec i → level rec i (length rec) = [].
Proof.
  intros Hac. destruct (level rec i (length rec)) as [|r l] eqn:Hl; [done|exfalso].
  assert (r ∈ level rec i (length rec)) as Hr by (rewrite Hl; left).
  apply level_chain in Hr as (p & Hlen & Hc & Hall).
  destruct (decide (NoDup (r :: p))) as [Hnd|Hnd].
  - apply NoDup_submseteq with (k := rec) in Hnd.
    + apply submseteq_length in Hnd. simpl in Hnd. lia.
    + intros x Hx. rewrite Forall_forall in Hall. eapply upstream_in_rec, Hall, Hx.
  - apply repeated_split in Hnd as (x & l1 & l2 & l3 & Heq).
    rewrite Heq in Hc, Hall. apply chain_tc in Hc.
    rewrite Forall_forall in Hall. apply (Hac x); [|done].
    apply Hall. rewrite elem_of_app. right. left.
Qed.

End Cycles.

Lemma elem_of_concat {A} (x : A) (ls : list (list A)) :
  x ∈ concat ls ↔ ∃ l, l ∈ ls ∧ x ∈ l.
Proof.
  induction ls as [|l ls IH]; simpl.
  - split; [by intros ?%not_elem_of_nil|]. by intros (l & ?%not_elem_of_nil & _).
  - rewrite elem_of_app, IH. split.
    + intros [?|(l' & ? & ?)]; [exists l; split; [left|done]|exists l'; split; [by right|done]].
    + intros (l' & [->|?]%elem_of_cons & ?); [by left|right; by exists l'].
Qed.

(** * find_upstream from one start id *)

Lemma find_upstream_one fuel i rec_streams :
  find_upstream fuel (PyList [i]) rec_streams = trace_from fuel (attrs <$> rec_streams) i.
Proof.
  unfold find_upstream. simpl.
  destruct (trace_from _ _ _) as [out|e|]; simpl; [|done..]. by rewrite app_nil_r.
Qed.

Lemma NoDup_fmap_eq {A B} (f : A → B) (l : list A) x y :
  NoDup (f <$> l) → x ∈ l → y ∈ l → f x = f y → x = y.
Proof.
  induction l as [|a l IH]; simpl; [by intros _ ?%not_elem_of_nil|].
  rewrite NoDup_cons, list_elem_of_fmap.
  intros [Hna Hnd] [->|Hx]%elem_of_cons [->|Hy]%elem_of_cons Heq; [done| | |by apply IH].
  - destruct Hna. by exists y.
  - destruct Hna. by exists x.
Qed.

(** The [for] loop returns when every pass returns. *)
Lemma trace_all_Ok fuel rec ids lst :
  trace_all fuel rec ids = Ok lst ↔
  Forall2 (λ i out, trace_from fuel rec i = Ok out) ids lst.
Proof.
  revert lst. induction ids as [|i ids IH]; intros lst; simpl.
  - split; [intros [= <-]; constructor|by intros ->%Forall2_nil_inv_l].
  - destruct (trace_from fuel rec i) as [out|e|] eqn:Ht.
    + destruct (trace_all fuel rec ids) as [lst'|e|] eqn:Hall.
      * split.
        -- intros [= <-]. constructor; [done|]. by apply IH.
        -- intros (out' & lst'' & Hout & Hlst & ->)%Forall2_cons_inv_l.
           apply IH in Hlst. congruence.
      * split; [done|].
        intros (out' & lst'' & _ & Hlst & _)%Forall2_cons_inv_l. by apply IH in Hlst.
      * split; [done|].
        intros (out' & lst'' & _ & Hlst & _)%Forall2_cons_inv_l. by apply IH in Hlst.
    + split; [done|]. intros (out' & lst'' & ? & _)%Forall2_cons_inv_l. congruence.
    + split; [done|]. intros (out' & lst'' & ? & _)%Forall2_cons_inv_l. congruence.
Qed.

Lemma find_upstream_Ok fuel nzreach rec_streams out :
  find_upstream fuel nzreach rec_streams = Ok out ↔
  ∃ ids lst, reach_ids nzreach = Some ids ∧ ids ≠ [] ∧
    trace_all fuel (attrs <$> rec_streams) ids = Ok lst ∧ out = concat lst.
Proof.
  unfold find_upstream. destruct (reach_ids nzreach) as [ids|]; [|naive_solver].
  destruct (trace_all _ _ ids) as [[|l lst]|e|] eqn:Hm.
  - pose proof (proj1 (trace_all_Ok _ _ _ _) Hm) as ->%Forall2_nil_inv_r. naive_solver.
  - split.
    + intros [= <-]. exists ids, (l :: lst).
      pose proof (Forall2_length _ _ _ (proj1 (trace_all_Ok _ _ _ _) Hm)) as Hlen.
      by destruct ids.
    + intros (ids' & lst' & [= <-] & _ & Hm' & ->). rewrite Hm in Hm'. by injection Hm' as <-.
  - split; [done|]. intros (ids' & lst' & [= <-] & _ & Hm' & _). congruence.
  - split; [done|]. intros (ids' & lst' & [= <-] & _ & Hm' & _). congruence.
Qed.

(** The first element of a list that fails a test. *)
Lemma first_failure {A} (P : A → Prop) `{!∀ x, Decision (P x)} (l : list A) :
  ¬ Forall P l → ∃ pre x post, l = pre ++ x :: post ∧ Forall P pre ∧ ¬ P x.
Proof.
  induction l as [|a l IH]; intros Hnot; [destruct Hnot; constructor|].
  destruct (decide (P a)) as [Ha|Ha].
  - destruct IH as (pre & x & post & -> & Hpre & Hx).
    { intros Hl. apply Hnot. by constructor. }
    exists (a :: pre), x, post. split; [done|]. split; [by constructor|done].
  - exists [], a, l. split; [done|]. split; [constructor|done].
Qed.

(** [unique] keeps the first failure first. *)
Lemma first_failure_unique (P : Z → Prop) pre i post :
  Forall P pre → ¬ P i →
  ∃ pre' post', unique (pre ++ i :: post) = pre' ++ i :: post' ∧ Forall P pre'.
Proof.
  intros Hpre Hi. induction Hpre as [|a pre Ha _ IH]; simpl.
  - exists [], (filter (λ y, y ≠ i) (unique post)). split; [done|constructor].
  - destruct IH as (pre' & post' & -> & Hpre').
    exists (a :: filter (λ y, y ≠ a) pre'), (filter (λ y, y ≠ a) post'). split.
    + rewrite filter_app, filter_cons, decide_True; [done|]. by intros ->.
    + constructor; [done|]. apply Forall_forall. intros x [_ Hx]%list_elem_of_filter.
      rewrite Forall_forall in Hpre'. by apply Hpre'.
Qed.

Lemma returns_Ok fuel rec_streams i :
  returns fuel rec_streams i ↔ ∃ out, trace_from fuel (attrs <$> rec_streams) i = Ok out.
Proof.
  unfold returns. destruct (trace_from _ _ _) as [out|e|]; split; try done.
  - intros _. by exists out.
  - by intros [? ?].
  - by intros [? ?].
Qed.

(** The run ends with the first pass that does not return. *)
Lemma trace_all_stops fuel rec_streams pre i post :
  Forall (returns fuel rec_streams) pre → ¬ returns fuel rec_streams i →
  (∀ e, trace_from fuel (attrs <$> rec_streams) i = Raise e →
        trace_all fuel (attrs <$> rec_streams) (pre ++ i :: post) = Raise e) ∧
  (trace_from fuel (attrs <$> rec_streams) i = OutOfFuel →
   trace_all fuel (attrs <$> rec_streams) (pre ++ i :: post) = OutOfFuel).
Proof.
  intros Hpre Hi. induction Hpre as [|a pre Ha _ IH]; simpl.
  - split; [intros e ->|intros ->]; done.
  - apply returns_Ok in Ha as [out ->]. destruct IH as [IHr IHo].
    split; [intros e He; by rewrite (IHr e He)|intros Ho; by rewrite (IHo Ho)].
Qed.

Lemma trace_all_returns fuel rec_streams ids :
  Forall (returns fuel rec_streams) ids →
  trace_all fuel (attrs <$> rec_streams) ids = Ok (traced fuel rec_streams <$> ids).
Proof.
  induction 1 as [|i ids Hi _ IH]; csimpl; [done|].
  rewrite IH. unfold traced. by apply returns_Ok in Hi as [out ->].
Qed.

Lemma trace_all_Ok_returns fuel rec_streams ids lst :
  trace_all fuel (attrs <$> rec_streams) ids = Ok lst → Forall (returns fuel rec_streams) ids.
Proof.
  intros Hall%trace_all_Ok. apply Forall_forall. intros i [n Hn]%list_elem_of_lookup.
  destruct (Forall2_lookup_l _ _ _ _ _ Hall Hn) as (out & _ & Ht).
  apply returns_Ok. by exists out.
Qed.

Lemma find_upstream_acyclic (rec_streams : list Stream) (i : Z) :
  i ∈ NZREACH ∘ attrs <$> rec_streams →
  acyclic_above (attrs <$> rec_streams) i →
  ∀ fuel, (length rec_streams ≤ fuel)%nat →
    ∃ out, find_upstream fuel (PyList [i]) rec_streams = Ok out ∧
           ∀ u, u ∈ out ↔ start u = i ∧ upstream (attrs <$> rec_streams) i (up_reach u).
Proof.
  rewrite list_fmap_compose. intros Hi Hac fuel Hfuel. rewrite find_upstream_one.
  pose proof (acyclic_level_empty _ _ Hac) as Hempty.
  rewrite length_fmap in Hempty.
  destruct (trace_from_terminates (attrs <$> rec_streams) fuel (length rec_streams) i)
    as [out Hout]; [lia|done..|].
  rewrite Hout. exists out. split; [done|]. by apply (trace_from_elem _ fuel).
Qed.

Lemma find_upstream_cycle (rec_streams : list Stream) (i : Z) :
  (∃ r, upstream (attrs <$> rec_streams) i r ∧ on_cycle (attrs <$> rec_streams) r) →
  ∀ fuel, find_upstream fuel (PyList [i]) rec_streams = OutOfFuel.
Proof.
  intros (r & Hup & Hc) fuel. rewrite find_upstream_one.
  destruct (trace_from fuel (attrs <$> rec_streams) i) as [out|e|] eqn:Ht; [exfalso..|done].
  - eapply cycle_level_nonempty; [done..|]. apply (trace_from_bound _ fuel). by rewrite Ht.
  - eapply cycle_level_nonempty; [done..|]. apply (trace_from_bound _ fuel). by rewrite Ht.
Qed.

(** C1 (as amended).  For a start id that a row of the table carries
    and with no cycle upstream of the start reach, [find_upstream]
    returns once the loop has run at most as many rounds as the table has
    rows, and its rows are exactly the reaches upstream of the start
    reach, that reach included, each tagged with the start id.  With a
    cycle upstream of the start reach (a reach whose two nodes coincide
    is one) the loop never ends, whatever the bound. *)
Theorem find_upstream_trace (rec_streams : list Stream) (i : Z) :
  (i ∈ NZREACH ∘ attrs <$> rec_streams →
   acyclic_above (attrs <$> rec_streams) i →
   ∀ fuel, (length rec_streams ≤ fuel)%nat →
     ∃ out, find_upstream fuel (PyList [i]) rec_streams = Ok out ∧
            ∀ u, u ∈ out ↔ start u = i ∧ upstream (attrs <$> rec_streams) i (up_reach u)) ∧
  ((∃ r, upstream (attrs <$> rec_streams) i r ∧ on_cycle (attrs <$> rec_streams) r) →
   ∀ fuel, find_upstream fuel (PyList [i]) rec_streams = OutOfFuel).
Proof. split; [apply find_upstream_acyclic|apply find_upstream_cycle]. Qed.

(** C1 fails on a self-loop: the table with the single reach 1
    from node 10 to node 10 has a cycle upstream of reach 1, and no bound
    on the rounds lets the trace from reach 1 return. *)
Lemma find_upstream_self_loop :
  upstream (attrs <$> self_loop) 1 (mkReach 1 10 10) ∧
  on_cycle (attrs <$> self_loop) (mkReach 1 10 10) ∧
  ¬ ∃ fuel out, find_upstream fuel (PyList [1]) self_loop = Ok out.
Proof.
  assert (mkReach 1 10 10 ∈ attrs <$> self_loop) as Hin by (simpl; left).
  assert (upstream (attrs <$> self_loop) 1 (mkReach 1 10 10)) as Hup
    by (by apply upstream_start).
  assert (on_cycle (attrs <$> self_loop) (mkReach 1 10 10)) as Hc
    by (by apply tc_once).
  repeat split; [done..|]. intros (fuel & out & Hout).
  rewrite (find_upstream_cycle self_loop 1) in Hout; [done|]. eauto.
Qed.

(** Without a cycle the trace returns, but a reach that is reached along
    paths of different lengths is listed once for each: here reach 5. *)
Example find_upstream_lists_twice :
  NZREACH ∘ up_reach <$>
    match find_upstream 5 (PyList [1]) two_paths with Ok out => out | _ => [] end
  = [1; 2; 4; 3; 5; 5].
Proof. reflexivity. Qed.

Lemma three_reaches_level_2 i : level (attrs <$> three_reaches) i 2 = [].
Proof.
  unfold level, select_reach. simpl.
  destruct (decide (i = 1)) as [->|?]; [done|].
  destruct (decide (i = 2)) as [->|?]; [done|].
  destruct (decide (i = 3)) as [->|?]; [done|].
  rewrite !filter_cons. simpl. repeat case_decide; try done; lia.
Qed.

Lemma three_reaches_acyclic i : acyclic_above (attrs <$> three_reaches) i.
Proof.
  intros r Hup Hc.
  by apply (cycle_level_nonempty _ i r 2 Hup Hc), three_reaches_level_2.
Qed.

Lemma find_upstream_trace_witness :
  ∃ out, find_upstream 3 (PyList [2]) three_reaches = Ok out ∧
         ∀ u, u ∈ out ↔ start u = 2 ∧ upstream (attrs <$> three_reaches) 2 (up_reach u).
Proof.
  apply (proj1 (find_upstream_trace three_reaches 2)
           ltac:(by_eval) (three_reaches_acyclic 2) 3%nat).
  simpl. lia.
Defined.

(** C7.  In a table whose reach ids are distinct, if the trace from [A]
    returns and lists a reach with id [B], then the trace from [B]
    returns as well, within the same bound, and every reach it lists is
    listed by the trace from [A]. *)
Theorem find_upstream_monotone (fuel : nat) (rec_streams : list Stream) (A B : Z)
    (out_A : list UpRow) :
  NoDup (NZREACH ∘ attrs <$> rec_streams) →
  find_upstream fuel (PyList [A]) rec_streams = Ok out_A →
  B ∈ NZREACH ∘ up_reach <$> out_A →
  ∃ out_B, find_upstream fuel (PyList [B]) rec_streams = Ok out_B ∧
           up_reach <$> out_B ⊆ up_reach <$> out_A.
Proof.
  intros Hnd. rewrite !find_upstream_one. set (rec := attrs <$> rec_streams).
  intros HA (u & HB & Hu)%list_elem_of_fmap. simpl in HB.
  apply (trace_from_elem _ _ _ _ HA) in Hu as [_ Hup].
  set (b := up_reach u) in *.
  destruct (upstream_level _ _ _ Hup) as [k Hk].
  assert (level rec B 0 ⊆ level rec A k) as H0.
  { intros r [Hr Hid]%elem_of_level_0.
    rewrite (NoDup_fmap_eq NZREACH rec r b); [done| |done| |congruence].
    - subst rec. by rewrite <-list_fmap_compose.
    - eapply upstream_in_rec, Hup. }
  assert (∀ n, level rec B n ⊆ level rec A (n + k)) as Hn.
  { intros n. rewrite <-level_shift. by apply iter_flowing_mono. }
  assert (level rec B (S fuel) = []) as Hend.
  { apply elem_of_nil_inv. intros r Hr%Hn.
    assert (level rec A (S fuel) = []) as HAend
      by (apply trace_from_bound; by rewrite HA).
    unfold level in *.
    rewrite (iter_flowing_empty_le rec (S fuel) (S fuel + k)) in Hr; [|lia|done].
    by apply not_elem_of_nil in Hr. }
  destruct (trace_from_terminates rec fuel (S fuel) B) as [rows_B HBt]; [lia|done| |].
  { rewrite HB. apply list_elem_of_fmap. exists b. split; [done|].
    eapply upstream_in_rec, Hup. }
  rewrite HBt. exists rows_B. split; [done|].
  intros r (v & -> & Hv)%list_elem_of_fmap.
  apply (trace_from_elem _ _ _ _ HBt) in Hv as [_ Hv].
  assert (upstream rec A (up_reach v)) as HvA.
  { destruct (upstream_level _ _ _ Hv) as [n Hvn]. apply Hn in Hvn.
    by eapply level_upstream. }
  apply list_elem_of_fmap. exists (mkUpRow A (up_reach v)). split; [done|].
  by apply (trace_from_elem _ _ _ _ HA).
Qed.

Lemma find_upstream_monotone_witness :
  ∃ out_B, find_upstream 3 (PyList [1]) three_reaches = Ok out_B ∧
           up_reach <$> out_B ⊆
             up_reach <$> [mkUpRow 2 (mkReach 2 20 30); mkUpRow 2 (mkReach 1 10 20)].
Proof.
  apply (find_upstream_monotone 3 three_reaches 2 1).
  - vm_compute. repeat constructor; set_solver.
  - reflexivity.
  - simpl. set_solver.
Defined.

(** C10.  When no row of the table has id [i], the trace from [i] does
    not return the empty table: the frame selected for [i] has no rows,
    and setting its column [start] raises [ValueError].  Nor does any
    batch that holds [i] return a table. *)
Theorem find_upstream_absent_start (fuel : nat) (rec_streams : list Stream) (i : Z) :
  (∀ s, s ∈ rec_streams → NZREACH (attrs s) ≠ i) →
  find_upstream fuel (PyList [i]) rec_streams = Raise ValueError ∧
  ∀ nzreach ids, reach_ids nzreach = Some ids → i ∈ ids →
                 ∀ out, find_upstream fuel nzreach rec_streams ≠ Ok out.
Proof.
  intros Habs.
  assert (i ∉ NZREACH <$> (attrs <$> rec_streams)) as Hni.
  { intros (r & -> & (s & -> & Hs)%list_elem_of_fmap)%list_elem_of_fmap. by apply (Habs s). }
  split.
  - rewrite find_upstream_one. by apply trace_from_Raise.
  - intros nzreach ids Hids Hi out (ids' & lst & Hids' & _ & Hall & _)%find_upstream_Ok.
    rewrite Hids in Hids'. injection Hids' as <-.
    apply trace_all_Ok in Hall. apply list_elem_of_lookup in Hi as [n Hn].
    destruct (Forall2_lookup_l _ _ _ _ _ Hall Hn) as (l & _ & Ht).
    by apply trace_from_present in Ht.
Qed.

Lemma find_upstream_absent_start_witness :
  find_upstream 0 (PyList [7]) three_reaches = Raise ValueError ∧
  ∀ nzreach ids, reach_ids nzreach = Some ids → 7 ∈ ids →
                 ∀ out, find_upstream 0 nzreach three_reaches ≠ Ok out.
Proof.
  apply (find_upstream_absent_start 0 three_reaches 7).
  intros s Hs. repeat (apply elem_of_cons in Hs as [->|Hs]; [simpl; lia|]).
  by apply not_elem_of_nil in Hs.
Defined.

(** * Topology modifications *)

Lemma foldl_set_col_NZREACH r upd : NZREACH (foldl set_col r upd) = NZREACH r.
Proof.
  revert r. induction upd as [|[[] v] upd IH]; intros r; simpl; [done|..]; by rewrite IH.
Qed.

Lemma apply_mod_ids rec_streams m :
  NZREACH ∘ attrs <$> apply_mod rec_streams m = NZREACH ∘ attrs <$> rec_streams.
Proof.
  unfold apply_mod. rewrite <-list_fmap_compose. apply list_fmap_ext.
  intros _ s _. simpl. case_decide; simpl; [apply foldl_set_col_NZREACH|done].
Qed.

Lemma make_mods_ids ms rec_streams :
  NZREACH ∘ attrs <$> make_mods ms rec_streams = NZREACH ∘ attrs <$> rec_streams.
Proof.
  unfold make_mods. revert rec_streams.
  induction ms as [|m ms IH]; intros t; simpl; [done|]. by rewrite IH, apply_mod_ids.
Qed.

Lemma make_mods_centroids ms rec_streams :
  centroid <$> make_mods ms rec_streams = centroid <$> rec_streams.
Proof.
  unfold make_mods. revert rec_streams.
  induction ms as [|m ms IH]; intros t; simpl; [done|]. rewrite IH.
  unfold apply_mod. rewrite <-list_fmap_compose. apply list_fmap_ext.
  intros _ s _. simpl. by case_decide.
Qed.

Lemma apply_mod_absent rec_streams i upd :
  i ∉ NZREACH ∘ attrs <$> rec_streams → apply_mod rec_streams (i, upd) = rec_streams.
Proof.
  intros Habs. unfold apply_mod. rewrite <-(list_fmap_id rec_streams) at 2.
  apply list_fmap_ext. intros _ s Hs%list_elem_of_lookup_2. simpl.
  case_decide as Hid; [|done]. destruct Habs.
  apply list_elem_of_fmap. by exists s.
Qed.

(** C8.  A modification whose reach id no row of the table carries
    changes nothing: applied alone it returns the table as it was, and
    anywhere in a dictionary of modifications it can be left out. *)
Theorem make_mods_absent (rec_streams : list Stream) (i : Z) (upd : list (node_col * Z)) :
  (∀ s, s ∈ rec_streams → NZREACH (attrs s) ≠ i) →
  make_mods [(i, upd)] rec_streams = rec_streams ∧
  ∀ before after,
    make_mods (before ++ (i, upd) :: after) rec_streams = make_mods (before ++ after) rec_streams.
Proof.
  intros Habs.
  assert (i ∉ NZREACH ∘ attrs <$> rec_streams) as Hni.
  { intros (s & Hid & Hs)%list_elem_of_fmap. by apply (Habs s). }
  split; [by apply apply_mod_absent|].
  intros before after. unfold make_mods. rewrite !foldl_app. simpl. f_equal.
  apply apply_mod_absent. fold (make_mods before rec_streams). by rewrite make_mods_ids.
Qed.

Lemma make_mods_absent_witness :
  make_mods [(13053151, [(col_NZTNODE, 13055874)])] three_reaches = three_reaches ∧
  ∀ before after,
    make_mods (before ++ (13053151, [(col_NZTNODE, 13055874)]) :: after) three_reaches
    = make_mods (before ++ after) three_reaches.
Proof.
  apply (make_mods_absent three_reaches 13053151 [(col_NZTNODE, 13055874)]).
  intros s Hs. repeat (apply elem_of_cons in Hs as [->|Hs]; [simpl; lia|]).
  by apply not_elem_of_nil in Hs.
Defined.

(** * Catchment extraction and aggregation *)

Lemma int32_id z : in_int32 z → int32 z = z.
Proof. unfold in_int32, int32. intros ?. rewrite Z.mod_small; lia. Qed.

Lemma int32_range z : in_int32 (int32 z).
Proof.
  unfold in_int32, int32.
  pose proof (Z.mod_pos_bound (z + 2 ^ 31) (2 ^ 32)). lia.
Qed.

Lemma elem_of_unique l x : x ∈ unique l ↔ x ∈ l.
Proof.
  induction l as [|a l IH]; simpl; [done|].
  rewrite !elem_of_cons, list_elem_of_filter, IH.
  destruct (decide (x = a)); naive_solver.
Qed.

Lemma NoDup_unique l : NoDup (unique l).
Proof.
  induction l as [|a l IH]; simpl; [constructor|].
  apply NoDup_cons. split; [|by apply NoDup_filter].
  rewrite list_elem_of_filter. by intros [? _].
Qed.

Lemma filter_fmap {A B} (f : A → B) (P : B → Prop) `{!∀ y, Decision (P y)} (l : list A) :
  filter P (f <$> l) = f <$> filter (P ∘ f) l.
Proof.
  induction l as [|a l IH]; csimpl; [done|].
  rewrite !filter_cons. csimpl. case_decide; csimpl; by rewrite IH.
Qed.

Lemma filter_all {A} (P : A → Prop) `{!∀ y, Decision (P y)} (l : list A) :
  (∀ x, x ∈ l → P x) → filter P l = l.
Proof.
  induction l as [|a l IH]; intros Hall; [done|].
  rewrite filter_cons, decide_True by (apply Hall; left).
  rewrite IH; [done|]. intros x Hx. apply Hall. by right.
Qed.

Lemma elem_of_group_keys l x : x ∈ group_keys l ↔ x ∈ l.
Proof. unfold group_keys. by rewrite merge_sort_Permutation, elem_of_unique. Qed.

Lemma NoDup_group_keys l : NoDup (group_keys l).
Proof. unfold group_keys. rewrite merge_sort_Permutation. apply NoDup_unique. Qed.

Lemma group_keys_sorted l : StronglySorted Z.le (group_keys l).
Proof. apply (StronglySorted_merge_sort Z.le). Qed.

(** Two tables with the same keys dissolve to the same sequence of keys. *)
Lemma group_keys_ext l1 l2 : (∀ x, x ∈ l1 ↔ x ∈ l2) → group_keys l1 = group_keys l2.
Proof.
  intros Hel. apply (StronglySorted_unique Z.le); [apply group_keys_sorted..|].
  apply NoDup_Permutation; [apply NoDup_group_keys..|].
  intros x. by rewrite !elem_of_group_keys.
Qed.

Lemma group_keys_single l k : l ≠ [] → (∀ x, x ∈ l → x = k) → group_keys l = [k].
Proof.
  intros Hne Hall. rewrite (group_keys_ext l [k]); [done|].
  intros x. rewrite list_elem_of_singleton. split; [apply Hall|intros ->].
  destruct l as [|a l]; [done|]. rewrite (Hall a) at 1 by left. left.
Qed.

Lemma group_keys_nil : group_keys [] = [].
Proof. done. Qed.

Lemma dissolve_eq rows :
  dissolve rows
  = (λ k, (k, ⋃ (snd <$> filter (λ kg, kg.1 = k) rows))) <$> group_keys (fst <$> rows).
Proof. done. Qed.

Lemma elem_of_dissolve rows kg :
  kg ∈ dissolve rows ↔
  kg.1 ∈ fst <$> rows ∧ kg.2 = ⋃ (snd <$> filter (λ r, r.1 = kg.1) rows).
Proof.
  rewrite dissolve_eq, list_elem_of_fmap. destruct kg as [k g]; simpl. split.
  - intros (k' & [= -> ->] & Hk). by rewrite elem_of_group_keys in Hk.
  - intros [Hk ->]. exists k. by rewrite elem_of_group_keys.
Qed.

Lemma elem_of_extract_catch (reaches : list UpRow) (rec_catch_shp : list Catch) rc :
  rc ∈ extract_catch reaches rec_catch_shp ↔
  rc_row rc ∈ reaches ∧
  in_int32 (NZREACH (up_reach (rc_row rc))) ∧
  NZREACH (up_reach (rc_row rc)) ∈ catch_NZREACH <$> rec_catch_shp ∧
  rc_geometry rc = catchment rec_catch_shp (NZREACH (up_reach (rc_row rc))).
Proof.
  destruct rc as [g r]. unfold extract_catch, catchment. simpl.
  set (sites := int32 <$> unique (NZREACH ∘ up_reach <$> reaches)).
  assert (∀ k, k ∈ NZREACH ∘ up_reach <$> reaches → (k ∈ sites ↔ in_int32 k)) as Hsites.
  { intros k Hk. unfold sites. rewrite list_elem_of_fmap. split.
    - intros (z & -> & _). apply int32_range.
    - intros Hr. exists k. by rewrite int32_id, elem_of_unique. }
  rewrite list_elem_of_bind. split.
  - intros ([k g'] & Hrc & Hkg). simpl in *.
    apply list_elem_of_fmap in Hrc as (r' & Heq & [Hid Hr]%list_elem_of_filter).
    injection Heq as -> ->.
    apply elem_of_dissolve in Hkg as [Hk Hg]. simpl in *.
    apply list_elem_of_fmap in Hk as ([k' g''] & Hk' & Hin'). simpl in Hk'. subst k'.
    apply list_elem_of_fmap in Hin' as (c & Hc & [Hcs Hcin]%list_elem_of_filter).
    injection Hc as Hck _.
    assert (k ∈ NZREACH ∘ up_reach <$> reaches) as Hkr.
    { apply list_elem_of_fmap. exists r'. by rewrite <-Hid. }
    rewrite Hid. split; [done|]. split; [apply Hsites; [done|by rewrite Hck]|].
    split; [apply list_elem_of_fmap; by exists c|].
    rewrite Hg, filter_fmap, <-list_fmap_compose, list_filter_filter_l; [done|].
    intros c' Hc'. simpl in Hc'. rewrite Hc'. by rewrite Hck.
  - intros (Hr & Hrange & (c & Hc & Hin)%list_elem_of_fmap & ->).
    set (k := NZREACH (up_reach r)) in *.
    assert (k ∈ sites) as Hk.
    { apply Hsites; [|done]. apply list_elem_of_fmap. by exists r. }
    exists (k, ⋃ (catch_geometry <$> filter (λ c, catch_NZREACH c = k) rec_catch_shp)).
    simpl. split.
    + apply list_elem_of_fmap. exists r. split; [done|]. by apply list_elem_of_filter.
    + apply elem_of_dissolve. simpl. split.
      * apply list_elem_of_fmap. exists (k, catch_geometry c). split; [done|].
        apply list_elem_of_fmap. exists c. split; [by rewrite <-Hc|].
        apply list_elem_of_filter. by rewrite <-Hc.
      * rewrite filter_fmap, <-list_fmap_compose, list_filter_filter_l; [done|].
        intros c' Hc'. simpl in Hc'. by rewrite Hc'.
Qed.

(** C2 (as amended).  [extract_catch] raises no error when a reach of the
    upstream table has no catchment polygon: its inner join leaves that
    reach out.  The rows it returns are exactly the rows of the upstream
    table whose reach id lies within int32 and is carried by some
    catchment, each with the dissolved polygon of that reach; and
    whenever the trace returns, [catch_delineate] returns the table
    aggregated from those rows. *)
Theorem extract_catch_rows (reaches : list UpRow) (rec_catch_shp : list Catch) :
  (∀ rc, rc ∈ extract_catch reaches rec_catch_shp ↔
     rc_row rc ∈ reaches ∧
     in_int32 (NZREACH (up_reach (rc_row rc))) ∧
     NZREACH (up_reach (rc_row rc)) ∈ catch_NZREACH <$> rec_catch_shp ∧
     rc_geometry rc = catchment rec_catch_shp (NZREACH (up_reach (rc_row rc)))) ∧
  (∀ kd fuel sites_shp rec_streams_shp max_distance,
     find_upstream fuel
       (NdArray (unique (seg_NZREACH <$> kd sites_shp (make_mods mods rec_streams_shp) max_distance)))
       (make_mods mods rec_streams_shp) = Ok reaches →
     catch_delineate kd fuel sites_shp rec_streams_shp rec_catch_shp max_distance
     = Ok (merge_sites (agg_catch (extract_catch reaches rec_catch_shp))
             (kd sites_shp (make_mods mods rec_streams_shp) max_distance))).
Proof.
  split; [intros rc; apply elem_of_extract_catch|].
  intros kd fuel sites streams maxd Hf. unfold catch_delineate, delineate_rows. by rewrite Hf.
Qed.

(** * The scenario of section 8 *)

Lemma make_mods_three_reaches : make_mods mods three_reaches = three_reaches.
Proof. reflexivity. Qed.

(** C4.  On the network of reaches 1 (10 to 20), 2 (20 to 30) and
    3 (25 to 30), with catchments of 5, 3 and 4 cells that do not
    overlap: a site matched to reach 2 has the upstream reaches 2 and 1
    and its catchment is the union of theirs, of area 8; a site matched
    to reach 3 has the upstream reach 3 alone and its catchment has
    area 4. *)
Theorem scenario_three_reaches (p1 p2 p3 : Polygon) (kd : matcher) (sites_shp : list Site)
    (max_distance : bound) (s : Z) (g : Point) (fuel : nat) :
  size p1 = 5%nat → size p2 = 3%nat → size p3 = 4%nat → p1 ## p2 →
  (kd sites_shp (make_mods mods three_reaches) max_distance = [mkSiteSeg s g 2] →
   find_upstream (S fuel) (NdArray [2]) three_reaches
   = Ok [mkUpRow 2 (mkReach 2 20 30); mkUpRow 2 (mkReach 1 10 20)] ∧
   catch_delineate kd (S fuel) sites_shp three_reaches
     [mkCatch 1 p1; mkCatch 2 p2; mkCatch 3 p3] max_distance
   = Ok [mkDelineation 2 (p1 ∪ p2) 8 s]) ∧
  (kd sites_shp (make_mods mods three_reaches) max_distance = [mkSiteSeg s g 3] →
   find_upstream (S fuel) (NdArray [3]) three_reaches = Ok [mkUpRow 3 (mkReach 3 25 30)] ∧
   catch_delineate kd (S fuel) sites_shp three_reaches
     [mkCatch 1 p1; mkCatch 2 p2; mkCatch 3 p3] max_distance
   = Ok [mkDelineation 3 p3 4 s]).
Proof.
  intros Hp1 Hp2 Hp3 Hdisj.
  assert (find_upstream (S fuel) (NdArray [2]) three_reaches
          = Ok [mkUpRow 2 (mkReach 2 20 30); mkUpRow 2 (mkReach 1 10 20)]) as H2
    by (destruct fuel; vm_compute; reflexivity).
  assert (find_upstream (S fuel) (NdArray [3]) three_reaches
          = Ok [mkUpRow 3 (mkReach 3 25 30)]) as H3
    by (destruct fuel; vm_compute; reflexivity).
  split; intros Hkd; (split; [done|]); unfold catch_delineate, delineate_rows; rewrite Hkd;
    rewrite make_mods_three_reaches.
  - change (unique (seg_NZREACH <$> [mkSiteSeg s g 2])) with [2].
    rewrite H2. unfold extract_catch.
    replace (int32 <$> unique (NZREACH ∘ up_reach <$>
               [mkUpRow 2 (mkReach 2 20 30); mkUpRow 2 (mkReach 1 10 20)]))
      with [2; 1] by (vm_compute; reflexivity).
    eval_filter. csimpl. do 2 f_equal.
    assert (p1 ∪ ∅ ∪ (p2 ∪ ∅ ∪ ∅) = p1 ∪ p2) as -> by set_solver.
    unfold area. rewrite size_union, Hp1, Hp2 by done. done.
  - change (unique (seg_NZREACH <$> [mkSiteSeg s g 3])) with [3].
    rewrite H3. unfold extract_catch.
    replace (int32 <$> unique (NZREACH ∘ up_reach <$> [mkUpRow 3 (mkReach 3 25 30)]))
      with [3] by (vm_compute; reflexivity).
    eval_filter. csimpl. do 2 f_equal.
    assert (p3 ∪ ∅ ∪ ∅ = p3) as -> by set_solver.
    unfold area. by rewrite Hp3.
Qed.

Lemma scenario_three_reaches_witness :
  (kd_nearest [mkSite 100 (10, 1)] (make_mods mods three_reaches) Inf = [mkSiteSeg 100 (10, 1) 2] →
   find_upstream 1 (NdArray [2]) three_reaches
   = Ok [mkUpRow 2 (mkReach 2 20 30); mkUpRow 2 (mkReach 1 10 20)] ∧
   catch_delineate kd_nearest 1 [mkSite 100 (10, 1)] three_reaches
     [mkCatch 1 (strip 5 0); mkCatch 2 (strip 3 1); mkCatch 3 (strip 4 2)] Inf
   = Ok [mkDelineation 2 (strip 5 0 ∪ strip 3 1) 8 100]) ∧
  (kd_nearest [mkSite 100 (10, 1)] (make_mods mods three_reaches) Inf = [mkSiteSeg 100 (10, 1) 3] →
   find_upstream 1 (NdArray [3]) three_reaches = Ok [mkUpRow 3 (mkReach 3 25 30)] ∧
   catch_delineate kd_nearest 1 [mkSite 100 (10, 1)] three_reaches
     [mkCatch 1 (strip 5 0); mkCatch 2 (strip 3 1); mkCatch 3 (strip 4 2)] Inf
   = Ok [mkDelineation 3 (strip 4 2) 4 100]).
Proof.
  apply (scenario_three_reaches (strip 5 0) (strip 3 1) (strip 4 2) kd_nearest
           [mkSite 100 (10, 1)] Inf 100 (10, 1) 0).
  - vm_compute. reflexivity.
  - vm_compute. reflexivity.
  - vm_compute. reflexivity.
  - by_eval.
Defined.

(** C2 fails where a polygon is missing: reach 1 is upstream of reach 2 and
    has no catchment polygon, yet the run for a site on reach 2 raises
    nothing and returns the catchment of reach 2 alone. *)
Lemma missing_catchment_skipped :
  find_upstream 1 (NdArray [2]) three_reaches
  = Ok [mkUpRow 2 (mkReach 2 20 30); mkUpRow 2 (mkReach 1 10 20)] ∧
  (1 ∉ catch_NZREACH <$> [mkCatch 2 (strip 3 1); mkCatch 3 (strip 4 2)]) ∧
  catch_delineate kd_nearest 1 [mkSite 100 (10, 1)] three_reaches
    [mkCatch 2 (strip 3 1); mkCatch 3 (strip 4 2)] Inf
  = Ok [mkDelineation 2 (strip 3 1) 3 100].
Proof.
  split; [reflexivity|]. split; [by_eval|]. vm_compute. reflexivity.
Qed.

(** * No matched site *)

(** When [find_upstream] raises: on an argument of the wrong type, on no
    id at all, or at the first id that no row of the table carries. *)
Lemma find_upstream_Raise fuel nzreach rec_streams e :
  find_upstream fuel nzreach rec_streams = Raise e ↔
  (e = TypeError ∧ reach_ids nzreach = None) ∨
  (e = ValueError ∧ ∃ ids, reach_ids nzreach = Some ids ∧
     (ids = [] ∨ ∃ pre i post, ids = pre ++ i :: post ∧
                   Forall (returns fuel rec_streams) pre ∧
                   i ∉ NZREACH ∘ attrs <$> rec_streams)).
Proof.
  rewrite list_fmap_compose.
  unfold find_upstream. destruct (reach_ids nzreach) as [ids|]; [|naive_solver].
  destruct (decide (Forall (returns fuel rec_streams) ids)) as [Hall|Hnall].
  - rewrite trace_all_returns by done. destruct ids as [|i ids]; csimpl.
    + split; [intros [= <-]; right; split; [done|]; exists []; split; [done|by left]|].
      by intros [[_ [=]]|[-> _]].
    + split; [done|]. intros [[_ [=]]|(_ & ids' & [= <-] & [[=]|Habs])].
      destruct Habs as (pre & j & post & Heq & _ & Hj). rewrite Heq in Hall.
      apply Forall_app in Hall as [_ [Hret _]%Forall_cons].
      apply returns_Ok in Hret as [out Hout]. by apply trace_from_present in Hout.
  - destruct (first_failure _ _ Hnall) as (pre & i & post & -> & Hpre & Hi).
    destruct (trace_all_stops fuel rec_streams pre i post Hpre Hi) as [Hr Ho].
    destruct (trace_from fuel (attrs <$> rec_streams) i) as [out|e'|] eqn:Ht.
    + destruct Hi. apply returns_Ok. by exists out.
    + rewrite (Hr e' eq_refl). apply trace_from_Raise in Ht as [-> Habs]. split.
      * intros [= <-]. right. split; [done|]. eexists. split; [done|]. right.
        by exists pre, i, post.
      * by intros [[_ [=]]|[-> _]].
    + rewrite (Ho eq_refl). split; [done|].
      intros [[_ [=]]|(_ & ids' & [= <-] & [Hnil|Habs])]; [by destruct pre|].
      destruct Habs as (pre' & j & post' & Heq & Hpre' & Hj).
      assert (¬ returns fuel rec_streams j) as Hjr.
      { intros [out Hout]%returns_Ok. by apply trace_from_present in Hout. }
      assert (trace_from fuel (attrs <$> rec_streams) j = Raise ValueError) as Hjt
        by (by apply trace_from_Raise).
      destruct (trace_all_stops fuel rec_streams pre' j post' Hpre' Hjr) as [Hr' _].
      specialize (Hr' _ Hjt). rewrite <-Heq, (Ho eq_refl) in Hr'. done.
Qed.

Lemma find_upstream_raise fuel nzreach rec_streams e :
  find_upstream fuel nzreach rec_streams = Raise e →
  reach_ids nzreach = None ∨
  ∃ ids, reach_ids nzreach = Some ids ∧
         (ids = [] ∨ ∃ i, i ∈ ids ∧ i ∉ NZREACH ∘ attrs <$> rec_streams).
Proof.
  intros [[_ ?]|(_ & ids & Hids & [->|Habs])]%find_upstream_Raise; [by left|right..].
  - exists []. split; [done|by left].
  - destruct Habs as (pre & i & post & -> & _ & Hi). eexists. split; [done|]. right.
    exists i. split; [|done]. rewrite elem_of_app. right. left.
Qed.

Lemma catch_delineate_no_match_aux kd fuel sites_shp rec_streams_shp rec_catch_shp max_distance :
  kd sites_shp (make_mods mods rec_streams_shp) max_distance = [] →
  catch_delineate kd fuel sites_shp rec_streams_shp rec_catch_shp max_distance = Raise ValueError.
Proof. intros Hkd. unfold catch_delineate, delineate_rows. by rewrite Hkd. Qed.

(** C9.  When the matcher returns no matched site, the array of matched
    reach ids is empty, [find_upstream] raises [ValueError] at
    [pd.concat], and [catch_delineate] raises it in turn instead of
    returning an empty table. *)
Theorem catch_delineate_no_match (kd : matcher) (fuel : nat) (sites_shp : list Site)
    (rec_streams_shp : list Stream) (rec_catch_shp : list Catch) (max_distance : bound) :
  kd sites_shp (make_mods mods rec_streams_shp) max_distance = [] →
  find_upstream fuel
    (NdArray (unique (seg_NZREACH <$> kd sites_shp (make_mods mods rec_streams_shp) max_distance)))
    (make_mods mods rec_streams_shp) = Raise ValueError ∧
  catch_delineate kd fuel sites_shp rec_streams_shp rec_catch_shp max_distance
  = Raise ValueError.
Proof. intros Hkd. unfold catch_delineate, delineate_rows. by rewrite Hkd. Qed.

Lemma catch_delineate_no_match_witness :
  find_upstream 5
    (NdArray (unique (seg_NZREACH <$>
       kd_nearest [mkSite 102 (500, 500)] (make_mods mods three_reaches) (Finite 5))))
    (make_mods mods three_reaches) = Raise ValueError ∧
  catch_delineate kd_nearest 5 [mkSite 102 (500, 500)] three_reaches
    [mkCatch 1 (strip 5 0)] (Finite 5)
  = Raise ValueError.
Proof.
  apply (catch_delineate_no_match kd_nearest 5 [mkSite 102 (500, 500)] three_reaches
           [mkCatch 1 (strip 5 0)] (Finite 5)).
  vm_compute. reflexivity.
Defined.

(** * Sites out of reach of every centroid *)

Lemma within_closer m p q q' : sqdist p q ≤ sqdist p q' → within m p q' → within m p q.
Proof. destruct m; simpl; [|done]. lia. Qed.

Lemma nearest_None p rows : nearest p rows = None → rows = [].
Proof.
  destruct rows as [|a rows]; simpl; [done|].
  destruct (nearest p rows); [by case_decide|done].
Qed.

Lemma nearest_Some p rows r :
  nearest p rows = Some r →
  r ∈ rows ∧ ∀ r', r' ∈ rows → sqdist p (centroid r) ≤ sqdist p (centroid r').
Proof.
  revert r. induction rows as [|a rows IH]; intros r; simpl; [done|].
  destruct (nearest p rows) as [b|] eqn:Hn.
  - destruct (IH b eq_refl) as [Hb Hmin]. case_decide as Hlt; intros [= <-].
    + split; [by right|]. intros r' [->|Hr']%elem_of_cons; [lia|by apply Hmin].
    + split; [left|]. intros r' [->|Hr']%elem_of_cons; [lia|].
      specialize (Hmin r' Hr'). lia.
  - apply nearest_None in Hn as ->. intros [= <-]. split; [left|].
    intros r' ->%list_elem_of_singleton. lia.
Qed.

(** The matcher's test on one site. *)
Lemma kd_match_near max_distance rows s :
  is_Some (r ← nearest (site_geometry s) rows;
           if decide (within max_distance (site_geometry s) (centroid r))
           then Some (mkSiteSeg (site s) (site_geometry s) (NZREACH (attrs r)))
           else None)
  ↔ near max_distance rows s.
Proof.
  unfold near. rewrite Exists_exists.
  destruct (nearest (site_geometry s) rows) as [r|] eqn:Hn; simpl.
  - apply nearest_Some in Hn as [Hr Hmin]. case_decide as Hw.
    + split; [intros _; by exists r|by eexists].
    + split; [by intros [??]|]. intros (r' & Hr' & Hw'). destruct Hw.
      eapply within_closer; [by apply Hmin|done].
  - apply nearest_None in Hn as ->. split; [by intros [??]|].
    by intros (r' & ?%not_elem_of_nil & _).
Qed.

Lemma omap_filter_Some {A B} (f : A → option B) (P : A → Prop) `{!∀ x, Decision (P x)}
    (l : list A) :
  (∀ x, is_Some (f x) → P x) → omap f (filter P l) = omap f l.
Proof.
  intros HP. induction l as [|a l IH]; [done|].
  rewrite filter_cons. csimpl. case_decide as Ha; csimpl; rewrite IH; [done|].
  destruct (f a) eqn:Hf; [|done]. destruct Ha. apply HP. by eexists.
Qed.

Lemma kd_nearest_near pts rows max_distance :
  kd_nearest (filter (near max_distance rows) pts) rows max_distance
  = kd_nearest pts rows max_distance.
Proof. unfold kd_nearest. apply omap_filter_Some. intros s. by rewrite kd_match_near. Qed.

Lemma elem_of_kd_nearest pts rows max_distance seg :
  seg ∈ kd_nearest pts rows max_distance →
  ∃ s, s ∈ pts ∧ near max_distance rows s ∧ seg_site seg = site s.
Proof.
  unfold kd_nearest. intros (s & Hs & Hseg)%list_elem_of_omap.
  exists s. split; [done|]. split; [apply kd_match_near; by eexists|].
  destruct (nearest _ _); simplify_eq/=. by case_decide; simplify_eq/=.
Qed.

(** The matcher gives a site the id of a row of the table. *)
Lemma kd_nearest_ids pts rows max_distance seg :
  seg ∈ kd_nearest pts rows max_distance → seg_NZREACH seg ∈ NZREACH ∘ attrs <$> rows.
Proof.
  unfold kd_nearest. intros (s & Hs & Hseg)%list_elem_of_omap.
  destruct (nearest _ _) as [r|] eqn:Hn; simplify_eq/=.
  case_decide; simplify_eq/=. apply nearest_Some in Hn as [Hr _].
  apply list_elem_of_fmap. by exists r.
Qed.

Lemma kd_nearest_nil pts rows max_distance :
  kd_nearest pts rows max_distance = [] ↔ ∀ s, s ∈ pts → ¬ near max_distance rows s.
Proof.
  unfold kd_nearest. split.
  - intros Hnil s Hs Hnear. apply kd_match_near in Hnear as [seg Hseg].
    assert (seg ∈ omap (λ s, r ← nearest (site_geometry s) rows;
             if decide (within max_distance (site_geometry s) (centroid r))
             then Some (mkSiteSeg (site s) (site_geometry s) (NZREACH (attrs r)))
             else None) pts) as Hin by (apply list_elem_of_omap; eauto).
    rewrite Hnil in Hin. by apply not_elem_of_nil in Hin.
  - intros Hfar. apply elem_of_nil_inv. intros seg (s & Hs & Hseg)%list_elem_of_omap.
    apply (Hfar s Hs), kd_match_near. by eexists.
Qed.

Lemma near_make_mods ms max_distance rows s :
  near max_distance (make_mods ms rows) s ↔ near max_distance rows s.
Proof.
  unfold near.
  rewrite <-(Exists_fmap centroid (λ c, within max_distance (site_geometry s) c) (make_mods ms rows)).
  rewrite <-(Exists_fmap centroid (λ c, within max_distance (site_geometry s) c) rows).
  by rewrite make_mods_centroids.
Qed.

Lemma elem_of_merge_sites rec_shed pts_seg d :
  d ∈ merge_sites rec_shed pts_seg →
  ∃ sh seg, sh ∈ rec_shed ∧ seg ∈ pts_seg ∧ seg_NZREACH seg = shed_start sh ∧
            d = mkDelineation (shed_start sh) (shed_geometry sh) (shed_area sh) (seg_site seg).
Proof.
  unfold merge_sites. intros (sh & Hd & Hsh)%list_elem_of_bind.
  apply list_elem_of_fmap in Hd as (seg & -> & [Hid Hseg]%list_elem_of_filter).
  by exists sh, seg.
Qed.

(** With the nearest-centroid matcher, the sites that lie farther than
    [max_distance] from every reach centroid have no effect on the run:
    it gives what it gives on the batch without them, and every row of
    its output carries the attributes of a site that lies within
    [max_distance] of some centroid.  The run raises nothing as long as
    one site of the batch lies within [max_distance] of some centroid;
    when none does, [pd.concat] is given no frame and raises. *)
Lemma far_sites_dropped (fuel : nat) (sites_shp : list Site) (rec_streams_shp : list Stream)
    (rec_catch_shp : list Catch) (max_distance : bound) :
  catch_delineate kd_nearest fuel sites_shp rec_streams_shp rec_catch_shp max_distance
  = catch_delineate kd_nearest fuel (filter (near max_distance rec_streams_shp) sites_shp)
      rec_streams_shp rec_catch_shp max_distance ∧
  (∀ out, catch_delineate kd_nearest fuel sites_shp rec_streams_shp rec_catch_shp max_distance
          = Ok out →
     ∀ d, d ∈ out →
       ∃ s, s ∈ sites_shp ∧ near max_distance rec_streams_shp s ∧ out_site d = site s) ∧
  ((∃ s, s ∈ sites_shp ∧ near max_distance rec_streams_shp s) →
   ∀ e, catch_delineate kd_nearest fuel sites_shp rec_streams_shp rec_catch_shp max_distance
        ≠ Raise e) ∧
  ((∀ s, s ∈ sites_shp → ¬ near max_distance rec_streams_shp s) →
   catch_delineate kd_nearest fuel sites_shp rec_streams_shp rec_catch_shp max_distance
   = Raise ValueError).
Proof.
  assert (filter (near max_distance rec_streams_shp) sites_shp
          = filter (near max_distance (make_mods mods rec_streams_shp)) sites_shp) as Hfilter.
  { apply list_filter_iff. intros s. symmetry. apply near_make_mods. }
  repeat split.
  - unfold catch_delineate, delineate_rows. by rewrite Hfilter, kd_nearest_near.
  - intros out Hout d Hd. unfold catch_delineate, delineate_rows in Hout.
    destruct (find_upstream _ _ _) as [reaches| |]; [|done..]. simplify_eq.
    apply elem_of_merge_sites in Hd as (sh & seg & _ & Hseg & _ & ->).
    apply elem_of_kd_nearest in Hseg as (s & Hs & Hnear & Hsite).
    apply (proj1 (near_make_mods mods max_distance rec_streams_shp s)) in Hnear.
    by exists s.
  - intros (s & Hs & Hnear) e. unfold catch_delineate, delineate_rows.
    destruct (find_upstream _ _ _) as [reaches|e'|] eqn:Hf; [done| |done]. intros _.
    apply find_upstream_raise in Hf as [Hf|(ids & [= <-] & [Hnil|Habs])]; [done| |].
    + assert (kd_nearest sites_shp (make_mods mods rec_streams_shp) max_distance = []) as Hkd.
      { destruct (kd_nearest sites_shp _ max_distance); [done|]. by simplify_eq/=. }
      rewrite kd_nearest_nil in Hkd. apply (Hkd s Hs). by apply near_make_mods.
    + destruct Habs as (i & Hin & Hi).
      apply elem_of_unique, list_elem_of_fmap in Hin as (seg & -> & Hseg).
      apply Hi. by apply (kd_nearest_ids sites_shp _ max_distance).
  - intros Hfar. apply catch_delineate_no_match_aux. apply kd_nearest_nil.
    intros s Hs Hnear%near_make_mods. by apply (Hfar s).
Qed.

Example far_sites_dropped_example :
  catch_delineate kd_nearest 3 [mkSite 100 (10, 1); mkSite 102 (500, 500)] three_reaches
    [mkCatch 1 (strip 5 0); mkCatch 2 (strip 3 1)] (Finite 5)
  = catch_delineate kd_nearest 3
      (filter (near (Finite 5) three_reaches) [mkSite 100 (10, 1); mkSite 102 (500, 500)])
      three_reaches [mkCatch 1 (strip 5 0); mkCatch 2 (strip 3 1)] (Finite 5) ∧
  catch_delineate kd_nearest 3 [mkSite 100 (10, 1); mkSite 102 (500, 500)] three_reaches
    [mkCatch 1 (strip 5 0); mkCatch 2 (strip 3 1)] (Finite 5)
  = Ok [mkDelineation 2 (strip 5 0 ∪ strip 3 1) 8 100].
Proof.
  split; [|vm_compute; reflexivity].
  apply (far_sites_dropped 3 [mkSite 100 (10, 1); mkSite 102 (500, 500)] three_reaches
           [mkCatch 1 (strip 5 0); mkCatch 2 (strip 3 1)] (Finite 5)).
Qed.

(** C3.  The only site of the batch lies farther than 5 from every
    centroid: instead of returning a table without it, the run raises
    [ValueError]. *)
Theorem all_sites_far_raises :
  ¬ near (Finite 5) three_reaches (mkSite 102 (500, 500)) ∧
  catch_delineate kd_nearest 3 [mkSite 102 (500, 500)] three_reaches
    [mkCatch 1 (strip 5 0); mkCatch 2 (strip 3 1)] (Finite 5)
  = Raise ValueError.
Proof. split; [by_eval|reflexivity]. Qed.

(** * One trace per matched reach, or one per site *)

Lemma filter_or_disjoint {A} (P Q : A → Prop) `{!∀ x, Decision (P x), !∀ x, Decision (Q x)}
    (l : list A) :
  (∀ x, P x → Q x → False) → filter (λ x, P x ∨ Q x) l ≡ₚ filter P l ++ filter Q l.
Proof.
  intros Hdisj. induction l as [|a l IH]; [done|].
  rewrite !filter_cons. destruct (decide (P a)) as [HP|HP], (decide (Q a)) as [HQ|HQ].
  - destruct (Hdisj a HP HQ).
  - rewrite decide_True by auto. simpl. by rewrite IH.
  - rewrite decide_True by auto. rewrite IH. apply Permutation_middle.
  - rewrite decide_False by tauto. done.
Qed.

Lemma bind_filter_Permutation {A} (key : A → Z) (keys : list Z) (l : list A) :
  NoDup keys →
  keys ≫= (λ k, filter (λ x, key x = k) l) ≡ₚ filter (λ x, key x ∈ keys) l.
Proof.
  induction keys as [|k keys IH]; intros Hnd.
  - simpl. symmetry. apply Permutation_nil_r, elem_of_nil_inv.
    intros x [Hx _]%list_elem_of_filter. by apply not_elem_of_nil in Hx.
  - apply NoDup_cons in Hnd as [Hk Hnd]. rewrite bind_cons, IH by done.
    rewrite <-filter_or_disjoint by (intros x <- ?; done).
    erewrite list_filter_iff; [done|]. intros x. rewrite elem_of_cons. naive_solver.
Qed.

Section Dedup.
Context (rec_catch_shp : list Catch).

Lemma agg_catch_extract reaches :
  agg_catch (extract_catch reaches rec_catch_shp)
  = (λ k, mkShed (int32 k) (shed_geom rec_catch_shp reaches k) (area (shed_geom rec_catch_shp reaches k)))
      <$> shed_keys rec_catch_shp reaches.
Proof.
  unfold agg_catch, shed_keys, shed_geom. rewrite dissolve_eq, <-!list_fmap_compose.
  apply list_fmap_ext. intros _ k _. simpl.
  by rewrite filter_fmap, <-list_fmap_compose.
Qed.

Lemma elem_of_shed_geom reaches k x :
  x ∈ shed_geom rec_catch_shp reaches k ↔
  ∃ r, drained rec_catch_shp reaches k r ∧ x ∈ catchment rec_catch_shp (NZREACH (up_reach r)).
Proof.
  unfold shed_geom, drained. rewrite elem_of_union_list. split.
  - intros (g & (rc & -> & [Hk Hrc]%list_elem_of_filter)%list_elem_of_fmap & Hx).
    apply elem_of_extract_catch in Hrc as (Hr & Hrange & Hc & Hg).
    exists (rc_row rc). by rewrite <-Hg.
  - intros (r & (Hr & Hk & Hrange & Hc) & Hx).
    exists (catchment rec_catch_shp (NZREACH (up_reach r))). split; [|done].
    apply list_elem_of_fmap.
    exists (mkReachCatch (catchment rec_catch_shp (NZREACH (up_reach r))) r).
    split; [done|]. apply list_elem_of_filter. split; [done|].
    by apply elem_of_extract_catch.
Qed.

Lemma elem_of_shed_keys reaches k : k ∈ shed_keys rec_catch_shp reaches ↔ ∃ r, drained rec_catch_shp reaches k r.
Proof.
  unfold shed_keys, drained. rewrite elem_of_group_keys, list_elem_of_fmap. split.
  - intros (rc & -> & (Hr & Hrange & Hc & _)%elem_of_extract_catch). by exists (rc_row rc).
  - intros (r & Hr & Hk & Hrange & Hc).
    exists (mkReachCatch (catchment rec_catch_shp (NZREACH (up_reach r))) r).
    split; [done|]. by apply elem_of_extract_catch.
Qed.

Lemma drained_ext reaches1 reaches2 k :
  (∀ r, start r = k → r ∈ reaches1 ↔ r ∈ reaches2) →
  ∀ r, drained rec_catch_shp reaches1 k r ↔ drained rec_catch_shp reaches2 k r.
Proof. intros Hrows r. unfold drained. specialize (Hrows r). naive_solver. Qed.

Lemma shed_geom_ext reaches1 reaches2 k :
  (∀ r, start r = k → r ∈ reaches1 ↔ r ∈ reaches2) →
  shed_geom rec_catch_shp reaches1 k = shed_geom rec_catch_shp reaches2 k.
Proof.
  intros Hrows. apply set_eq. intros x. rewrite !elem_of_shed_geom.
  by setoid_rewrite (drained_ext _ _ _ Hrows).
Qed.

Lemma shed_keys_ext reaches1 reaches2 k :
  (∀ r, start r = k → r ∈ reaches1 ↔ r ∈ reaches2) →
  k ∈ shed_keys rec_catch_shp reaches1 ↔ k ∈ shed_keys rec_catch_shp reaches2.
Proof.
  intros Hrows. rewrite !elem_of_shed_keys.
  by setoid_rewrite (drained_ext _ _ _ Hrows).
Qed.

(** A table traced from one start id aggregates to at most one row. *)
Lemma shed_keys_single reaches k :
  (∀ r, r ∈ reaches → start r = k) →
  shed_keys rec_catch_shp reaches = if decide (k ∈ shed_keys rec_catch_shp reaches) then [k] else [].
Proof.
  intros Hall.
  assert (∀ j, j ∈ shed_keys rec_catch_shp reaches → j = k) as Hk.
  { intros j (r & Hr & <- & _)%elem_of_shed_keys. by apply Hall. }
  case_decide as Hin.
  - unfold shed_keys in *. apply group_keys_single.
    + intros Hnil. rewrite Hnil in Hin. by apply not_elem_of_nil in Hin.
    + intros j Hj. apply Hk. by apply elem_of_group_keys.
  - apply elem_of_nil_inv. intros j Hj. by rewrite (Hk j Hj) in Hj.
Qed.

End Dedup.

Lemma concat_fmap_bind {A B} (f : A → list B) (l : list A) : concat (f <$> l) = l ≫= f.
Proof. induction l as [|a l IH]; csimpl; [done|]. by rewrite IH. Qed.

Lemma fmap_bind_comm {A B C} (f : B → C) (g : A → list B) (l : list A) :
  f <$> (l ≫= g) = l ≫= (λ x, f <$> g x).
Proof. induction l as [|a l IH]; csimpl; [done|]. by rewrite fmap_app, IH. Qed.

Lemma bind_ext_in {A B} (f g : A → list B) (l : list A) :
  (∀ x, x ∈ l → f x = g x) → l ≫= f = l ≫= g.
Proof.
  induction l as [|a l IH]; intros Hext; csimpl; [done|].
  rewrite (Hext a) by left. rewrite IH; [done|]. intros x Hx. apply Hext. by right.
Qed.

Lemma bind_if_filter {A B} (P : A → Prop) `{!∀ x, Decision (P x)} (h : A → B) (l : list A) :
  l ≫= (λ x, if decide (P x) then [h x] else []) = h <$> filter P l.
Proof.
  induction l as [|a l IH]; csimpl; [done|].
  rewrite filter_cons, IH. by case_decide.
Qed.

Lemma find_upstream_one_array fuel i rec_streams :
  find_upstream fuel (NdArray [i]) rec_streams = find_upstream fuel (PyList [i]) rec_streams.
Proof. done. Qed.

Section PerSite.
Context (fuel : nat) (rec_streams : list Stream) (rec_catch_shp : list Catch).

Lemma traced_start i r : r ∈ (traced fuel rec_streams) i → start r = i.
Proof.
  unfold traced. destruct (trace_from _ _ i) as [out|e|] eqn:Ht; simpl.
  - intros Hr. by apply (trace_from_elem _ _ _ _ Ht) in Hr as [? _].
  - by intros ?%not_elem_of_nil.
  - by intros ?%not_elem_of_nil.
Qed.

Lemma traced_rows (ids : list Z) k :
  k ∈ ids → ∀ r, start r = k → r ∈ ids ≫= (traced fuel rec_streams) ↔ r ∈ (traced fuel rec_streams) k.
Proof.
  intros Hk r Hr. rewrite list_elem_of_bind. split.
  - intros (j & Hj & _). by rewrite <-(traced_start j r Hj), Hr in Hj.
  - intros Hin. by exists k.
Qed.

Lemma find_upstream_returns (ids : list Z) :
  ids ≠ [] → Forall (returns fuel rec_streams) ids →
  find_upstream fuel (NdArray ids) rec_streams = Ok (ids ≫= (traced fuel rec_streams)).
Proof.
  intros Hne Hall. unfold find_upstream. simpl.
  rewrite trace_all_returns by done. rewrite <-concat_fmap_bind. by destruct ids.
Qed.

(** The run ends as the first pass that does not return ends. *)
Lemma find_upstream_stops pre i post :
  Forall (returns fuel rec_streams) pre → ¬ returns fuel rec_streams i →
  find_upstream fuel (NdArray (pre ++ i :: post)) rec_streams
  = failure (trace_from fuel (attrs <$> rec_streams) i).
Proof.
  intros Hpre Hi. unfold find_upstream. simpl.
  destruct (trace_all_stops fuel rec_streams pre i post Hpre Hi) as [Hr Ho].
  destruct (trace_from fuel (attrs <$> rec_streams) i) as [out|e|] eqn:Ht.
  - destruct Hi. apply returns_Ok. by exists out.
  - by rewrite (Hr e eq_refl).
  - by rewrite (Ho eq_refl).
Qed.

(** When every id is an id of the table, a pass that does not return
    keeps the run from returning. *)
Lemma find_upstream_diverges (ids : list Z) i :
  (∀ j, j ∈ ids → j ∈ NZREACH ∘ attrs <$> rec_streams) →
  i ∈ ids → ¬ returns fuel rec_streams i →
  find_upstream fuel (NdArray ids) rec_streams = OutOfFuel.
Proof.
  intros Hids Hi Hnone.
  destruct (first_failure (returns fuel rec_streams) ids) as (pre & j & post & -> & Hpre & Hj).
  { intros Hall. rewrite Forall_forall in Hall. by apply Hnone, Hall. }
  rewrite find_upstream_stops by done.
  destruct (trace_from fuel (attrs <$> rec_streams) j) as [out|e|] eqn:Ht; [done| |done].
  apply trace_from_Raise in Ht as [_ Habs]. destruct Habs.
  rewrite <-list_fmap_compose. apply Hids. rewrite elem_of_app. right. left.
Qed.

Lemma delineate_site_returns seg :
  (returns fuel rec_streams) (seg_NZREACH seg) →
  delineate_site fuel rec_streams rec_catch_shp seg
  = Ok (if decide (seg_NZREACH seg ∈ shed_keys rec_catch_shp ((traced fuel rec_streams) (seg_NZREACH seg)))
        then [(site_row fuel rec_streams rec_catch_shp) seg] else []).
Proof.
  intros Hret. unfold delineate_site.
  rewrite (find_upstream_returns [seg_NZREACH seg]) by (done || by constructor).
  csimpl. rewrite app_nil_r. f_equal.
  rewrite agg_catch_extract.
  pose proof (shed_keys_single rec_catch_shp _ _ (traced_start (seg_NZREACH seg))) as Hkeys.
  destruct (decide (seg_NZREACH seg ∈ _)) as [Hin|Hnin]; by rewrite Hkeys.
Qed.

Lemma delineate_site_stops seg :
  ¬ (returns fuel rec_streams) (seg_NZREACH seg) →
  delineate_site fuel rec_streams rec_catch_shp seg
  = failure (trace_from fuel (attrs <$> rec_streams) (seg_NZREACH seg)).
Proof.
  intros Hnone. unfold delineate_site.
  change (NdArray [seg_NZREACH seg]) with (NdArray ([] ++ seg_NZREACH seg :: [])).
  rewrite find_upstream_stops by (done || constructor).
  by destruct (trace_from _ _ _).
Qed.

Lemma delineate_sites_returns pts_seg :
  Forall ((returns fuel rec_streams) ∘ seg_NZREACH) pts_seg →
  delineate_sites fuel rec_streams rec_catch_shp pts_seg
  = Ok ((site_row fuel rec_streams rec_catch_shp) <$> filter
          (λ seg, seg_NZREACH seg ∈ shed_keys rec_catch_shp ((traced fuel rec_streams) (seg_NZREACH seg))) pts_seg).
Proof.
  induction 1 as [|seg pts_seg Hseg _ IH]; [done|]. simpl.
  rewrite delineate_site_returns, IH by done. rewrite filter_cons.
  by case_decide.
Qed.

Lemma delineate_sites_stops pre seg post :
  Forall ((returns fuel rec_streams) ∘ seg_NZREACH) pre →
  ¬ returns fuel rec_streams (seg_NZREACH seg) →
  delineate_sites fuel rec_streams rec_catch_shp (pre ++ seg :: post)
  = failure (trace_from fuel (attrs <$> rec_streams) (seg_NZREACH seg)).
Proof.
  intros Hpre Hseg. induction Hpre as [|a pre Ha _ IH]; simpl.
  - rewrite delineate_site_stops by done. by destruct (trace_from _ _ _).
  - rewrite delineate_site_returns by done. rewrite IH. by destruct (trace_from _ _ _).
Qed.

End PerSite.

Lemma filter_ext_in {A} (P Q : A → Prop) `{!∀ x, Decision (P x), !∀ x, Decision (Q x)}
    (l : list A) :
  (∀ x, x ∈ l → P x ↔ Q x) → filter P l = filter Q l.
Proof.
  induction l as [|a l IH]; intros Hext; [done|].
  rewrite !filter_cons, IH by (intros x Hx; apply Hext; by right).
  apply decide_ext, Hext. left.
Qed.

(** Traced once per distinct matched reach and joined back on the reach
    id, the rows are those of the per-site formulation in another order. *)
Lemma dedup_rows fuel rec_streams rec_catch_shp (pts_seg : list SiteSeg) :
  (∀ seg, seg ∈ pts_seg → in_int32 (seg_NZREACH seg)) →
  merge_sites
    (agg_catch (extract_catch (unique (seg_NZREACH <$> pts_seg) ≫= traced fuel rec_streams)
                  rec_catch_shp)) pts_seg
  ≡ₚ site_row fuel rec_streams rec_catch_shp <$>
       filter (λ seg, seg_NZREACH seg
                      ∈ shed_keys rec_catch_shp (traced fuel rec_streams (seg_NZREACH seg)))
         pts_seg.
Proof.
  intros Hrange.
  set (U := unique (seg_NZREACH <$> pts_seg)). set (R := U ≫= traced fuel rec_streams).
  assert (∀ seg, seg ∈ pts_seg → seg_NZREACH seg ∈ U) as HU.
  { intros seg Hseg. apply elem_of_unique, list_elem_of_fmap. by exists seg. }
  assert (∀ k, k ∈ U → in_int32 k) as HUrange.
  { intros k (seg & -> & Hseg)%elem_of_unique%list_elem_of_fmap. by apply Hrange. }
  assert (∀ k, k ∈ shed_keys rec_catch_shp R → k ∈ U) as Hkeys.
  { intros k (r & (j & Hr & Hj)%list_elem_of_bind & Hk & _)%elem_of_shed_keys.
    by rewrite <-Hk, (traced_start _ _ _ _ Hr). }
  rewrite agg_catch_extract. unfold merge_sites. rewrite list_fmap_bind.
  rewrite (bind_ext_in _
    (λ k, site_row fuel rec_streams rec_catch_shp <$> filter (λ seg, seg_NZREACH seg = k) pts_seg)).
  - rewrite <-fmap_bind_comm.
    rewrite bind_filter_Permutation by apply NoDup_group_keys.
    apply eq_subrelation; [apply _|]. f_equal. apply filter_ext_in.
    intros seg Hseg. apply shed_keys_ext. intros r Hr.
    by apply traced_rows; [apply HU|].
  - intros k Hk. simpl. rewrite (int32_id k) by by apply HUrange, Hkeys.
    apply list_fmap_ext. intros _ seg [Hid _]%list_elem_of_lookup_2%list_elem_of_filter.
    unfold site_row. rewrite Hid.
    rewrite (shed_geom_ext rec_catch_shp R (traced fuel rec_streams k) k); [done|].
    intros r Hr. by apply traced_rows; [apply Hkeys|].
Qed.

(** C5 (as amended).  When at least one site is matched and the matched
    reach ids lie within int32, tracing and aggregating once per distinct
    matched reach and joining the result back on the reach id gives the
    outcome of tracing and aggregating once per site: both runs return,
    with the same rows, in the order of the reach ids where the per-site
    formulation follows the sites, or neither returns. *)
Theorem dedup_same_as_per_site (kd : matcher) (fuel : nat) (sites_shp : list Site)
    (rec_streams_shp : list Stream) (rec_catch_shp : list Catch) (max_distance : bound) :
  kd sites_shp (make_mods mods rec_streams_shp) max_distance ≠ [] →
  (∀ seg, seg ∈ kd sites_shp (make_mods mods rec_streams_shp) max_distance →
          in_int32 (seg_NZREACH seg)) →
  same_outcome
    (catch_delineate kd fuel sites_shp rec_streams_shp rec_catch_shp max_distance)
    (delineate_per_site kd fuel sites_shp rec_streams_shp rec_catch_shp max_distance).
Proof.
  unfold catch_delineate, delineate_rows, delineate_per_site.
  generalize (kd sites_shp (make_mods mods rec_streams_shp) max_distance).
  generalize (make_mods mods rec_streams_shp). clear.
  intros rec_streams pts_seg Hne Hrange.
  assert (unique (seg_NZREACH <$> pts_seg) ≠ []) as HUne by (by destruct pts_seg).
  destruct (decide (Forall (returns fuel rec_streams ∘ seg_NZREACH) pts_seg)) as [Hall|Hnall].
  - rewrite find_upstream_returns, delineate_sites_returns; [|done..|].
    + simpl. by apply dedup_rows.
    + apply Forall_forall. intros k (seg & -> & Hseg)%elem_of_unique%list_elem_of_fmap.
      rewrite Forall_forall in Hall. by apply (Hall seg).
  - destruct (first_failure _ _ Hnall) as (pre & seg & post & -> & Hpre & Hseg).
    rewrite delineate_sites_stops by done.
    destruct (first_failure_unique (returns fuel rec_streams) (seg_NZREACH <$> pre)
                (seg_NZREACH seg) (seg_NZREACH <$> post)) as (pre' & post' & Heq & Hpre');
      [by apply Forall_fmap|done|].
    rewrite fmap_app, fmap_cons, Heq, find_upstream_stops by done.
    by destruct (trace_from _ _ _).
Qed.

Lemma dedup_same_as_per_site_witness :
  same_outcome
    (catch_delineate kd_nearest 3 [mkSite 100 (10, 1); mkSite 101 (10, 2); mkSite 103 (10, 9)]
       three_reaches [mkCatch 1 (strip 5 0); mkCatch 2 (strip 3 1); mkCatch 3 (strip 4 2)] Inf)
    (delineate_per_site kd_nearest 3 [mkSite 100 (10, 1); mkSite 101 (10, 2); mkSite 103 (10, 9)]
       three_reaches [mkCatch 1 (strip 5 0); mkCatch 2 (strip 3 1); mkCatch 3 (strip 4 2)] Inf).
Proof.
  apply (dedup_same_as_per_site kd_nearest 3
           [mkSite 100 (10, 1); mkSite 101 (10, 2); mkSite 103 (10, 9)] three_reaches
           [mkCatch 1 (strip 5 0); mkCatch 2 (strip 3 1); mkCatch 3 (strip 4 2)] Inf).
  - vm_compute. discriminate.
  - intros seg Hseg. vm_compute in Hseg.
    repeat (apply elem_of_cons in Hseg as [->|Hseg]; [by vm_compute|]).
    by apply not_elem_of_nil in Hseg.
Defined.

(** C5 fails in the order of the rows and without a match.  The rows
    come in the order of the reach ids where the per-site formulation
    follows the sites; and when no site is matched the run traced once
    per distinct reach raises, while there is nothing to trace site by
    site and the per-site formulation returns the empty table. *)
Lemma dedup_differs :
  (out_site <$>
     match catch_delineate kd_nearest 3 [mkSite 103 (10, 9); mkSite 100 (10, 1)] three_reaches
             [mkCatch 1 (strip 5 0); mkCatch 2 (strip 3 1); mkCatch 3 (strip 4 2)] Inf
     with Ok out => out | _ => [] end) = [100; 103] ∧
  (out_site <$>
     match delineate_per_site kd_nearest 3 [mkSite 103 (10, 9); mkSite 100 (10, 1)] three_reaches
             [mkCatch 1 (strip 5 0); mkCatch 2 (strip 3 1); mkCatch 3 (strip 4 2)] Inf
     with Ok out => out | _ => [] end) = [103; 100] ∧
  catch_delineate kd_nearest 3 [mkSite 102 (500, 500)] three_reaches
    [mkCatch 1 (strip 5 0)] (Finite 5) = Raise ValueError ∧
  delineate_per_site kd_nearest 3 [mkSite 102 (500, 500)] three_reaches
    [mkCatch 1 (strip 5 0)] (Finite 5) = Ok [].
Proof. repeat split; vm_compute; reflexivity. Qed.

(** Beyond int32 the two formulations part: the start id 2^32 + 1 is
    cast to 1, so the join on the reach id attaches its catchment to the
    site on reach 1, which then has two rows, where the per-site
    formulation gives each site its one row. *)
Example dedup_differs_beyond_int32 :
  (out_site <$>
     match catch_delineate
             (fixed_matches [mkSiteSeg 100 (0, 0) 1; mkSiteSeg 101 (0, 9) (2 ^ 32 + 1)]) 3 []
             [mkStream (mkReach 1 10 20) (0, 0); mkStream (mkReach (2 ^ 32 + 1) 30 40) (0, 9);
              mkStream (mkReach 7 25 30) (0, 8)]
             [mkCatch 1 (strip 5 0); mkCatch 7 (strip 3 1)] Inf
     with Ok out => out | _ => [] end) = [100; 100] ∧
  (out_site <$>
     match delineate_per_site
             (fixed_matches [mkSiteSeg 100 (0, 0) 1; mkSiteSeg 101 (0, 9) (2 ^ 32 + 1)]) 3 []
             [mkStream (mkReach 1 10 20) (0, 0); mkStream (mkReach (2 ^ 32 + 1) 30 40) (0, 9);
              mkStream (mkReach 7 25 30) (0, 8)]
             [mkCatch 1 (strip 5 0); mkCatch 7 (strip 3 1)] Inf
     with Ok out => out | _ => [] end) = [100; 101].
Proof. split; vm_compute; reflexivity. Qed.

(** * The tables in memory *)

Lemma extends_refl n (σ : InPlace.store) : InPlace.extends n σ σ.
Proof. by split. Qed.

Lemma extends_trans n (σ1 σ2 σ3 : InPlace.store) :
  InPlace.extends n σ1 σ2 → InPlace.extends n σ2 σ3 → InPlace.extends n σ1 σ3.
Proof.
  intros [Hlen12 H12] [Hlen23 H23]. split; [lia|].
  intros l Hl. by rewrite H23, H12.
Qed.

Lemma grows_ret {A} n (a : A) (Q : A → Prop) : Q a → InPlace.grows n (InPlace.ret a) Q.
Proof. intros HQ σ _. split; [apply extends_refl|]. by intros ? [= <-]. Qed.

Lemma grows_lift {A} n (r : result A) : InPlace.grows n (InPlace.lift r) (λ _, True).
Proof. intros σ _. split; [apply extends_refl|done]. Qed.

Lemma grows_bind {A B} n (m : InPlace.M A) (k : A → InPlace.M B) (Q : A → Prop) (R : B → Prop) :
  InPlace.grows n m Q → (∀ a, Q a → InPlace.grows n (k a) R) →
  InPlace.grows n (InPlace.bind m k) R.
Proof.
  intros Hm Hk σ Hσ. destruct (Hm σ Hσ) as [Hext HQ]. unfold InPlace.bind.
  destruct (m σ) as [[a|e|] σ1]; simpl in *; [|by split..].
  destruct (Hk a (HQ a eq_refl) σ1) as [Hext1 HR]; [destruct Hext; lia|].
  split; [by eapply extends_trans|done].
Qed.

Lemma grows_load n fs src : InPlace.grows n (InPlace.load_geo_data fs src) (λ l, (n ≤ l)%nat).
Proof.
  intros σ Hσ. unfold InPlace.load_geo_data.
  destruct (match src with InPlace.Path file => fs !! file | InPlace.Frame l => σ !! l end).
  - simpl. split; [|by intros ? [= <-]]. split; [rewrite length_app; lia|].
    intros l Hl. apply lookup_app_l. lia.
  - simpl. split; [apply extends_refl|done].
Qed.

Lemma grows_streams_at n l : InPlace.grows n (InPlace.streams_at l) (λ _, True).
Proof.
  intros σ _. unfold InPlace.streams_at.
  destruct (σ !! l) as [[]|]; simpl; (split; [apply extends_refl|done]).
Qed.

Lemma grows_catch_at n l : InPlace.grows n (InPlace.catch_at l) (λ _, True).
Proof.
  intros σ _. unfold InPlace.catch_at.
  destruct (σ !! l) as [[]|]; simpl; (split; [apply extends_refl|done]).
Qed.

Lemma grows_sites_at n l : InPlace.grows n (InPlace.sites_at l) (λ _, True).
Proof.
  intros σ _. unfold InPlace.sites_at.
  destruct (σ !! l) as [[]|]; simpl; (split; [apply extends_refl|done]).
Qed.

(** An assignment into a frame at or above [n] leaves those below alone. *)
Lemma grows_assign n l f : (n ≤ l)%nat → InPlace.grows n (InPlace.assign l f) (λ _, True).
Proof.
  intros Hl σ _. unfold InPlace.assign. simpl. split; [|done].
  split; [by rewrite length_insert|]. intros l' Hl'. apply list_lookup_insert_ne. lia.
Qed.

Lemma grows_set_loc n l m : (n ≤ l)%nat → InPlace.grows n (InPlace.set_loc l m) (λ _, True).
Proof.
  intros Hl. eapply grows_bind; [apply grows_streams_at|].
  intros rows _. by apply grows_assign.
Qed.

Lemma grows_mods_loop n l ms : (n ≤ l)%nat → InPlace.grows n (InPlace.mods_loop l ms) (λ _, True).
Proof.
  intros Hl. induction ms as [|m ms IH]; simpl; [by apply grows_ret|].
  eapply grows_bind; [by apply grows_set_loc|done].
Qed.

Lemma grows_simplify_geometry n l :
  (n ≤ l)%nat → InPlace.grows n (InPlace.simplify_geometry l) (λ _, True).
Proof.
  intros Hl. eapply grows_bind; [apply grows_sites_at|].
  intros rows _. by apply grows_assign.
Qed.

Lemma grows_catch_delineate n fs kd fuel sites_shp rec_streams_shp rec_catch_shp max_distance :
  InPlace.grows n
    (InPlace.catch_delineate fs kd fuel sites_shp rec_streams_shp rec_catch_shp max_distance)
    (λ _, True).
Proof.
  unfold InPlace.catch_delineate.
  eapply grows_bind; [apply grows_load|]. intros rec_catch _.
  eapply grows_bind; [apply grows_load|]. intros rec_streams Hrs.
  eapply grows_bind; [apply grows_load|]. intros pts Hpts.
  eapply grows_bind; [by apply grows_simplify_geometry|]. intros _ _.
  eapply grows_bind; [by apply grows_mods_loop|]. intros _ _.
  eapply grows_bind; [apply grows_load|]. intros rec_pts1 _.
  eapply grows_bind; [apply grows_load|]. intros rec _.
  eapply grows_bind; [apply grows_load|]. intros catch0 _.
  eapply grows_bind; [apply grows_sites_at|]. intros pts_rows _.
  eapply grows_bind; [apply grows_streams_at|]. intros rec_rows _.
  eapply grows_bind; [apply grows_catch_at|]. intros catch_rows _.
  apply grows_lift.
Qed.

(** The loop of modifications on the frame at [l]. *)
Lemma mods_loop_frame l ms rows (σ : InPlace.store) :
  σ !! l = Some (InPlace.StreamFrame rows) →
  InPlace.mods_loop l ms σ = (Ok (), <[l := InPlace.StreamFrame (make_mods ms rows)]> σ).
Proof.
  revert rows σ. induction ms as [|m ms IH]; intros rows σ Hl; simpl.
  - unfold InPlace.ret. by rewrite list_insert_id.
  - unfold InPlace.bind at 1. unfold InPlace.set_loc, InPlace.bind, InPlace.streams_at.
    rewrite Hl. simpl.
    rewrite (IH (apply_mod rows m)).
    + by rewrite list_insert_insert_eq.
    + apply list_lookup_insert_eq. by eapply lookup_lt_Some.
Qed.

Lemma lookup_app_plus (σ l : InPlace.store) k : (σ ++ l) !! (length σ + k)%nat = l !! k.
Proof. rewrite lookup_app_r by lia. f_equal. lia. Qed.

Lemma load_frame_app fs (σ l : InPlace.store) k f :
  (σ ++ l) !! k = Some f →
  InPlace.load_geo_data fs (InPlace.Frame k) (σ ++ l)
  = (Ok (length σ + length l)%nat, σ ++ (l ++ [f])).
Proof.
  intros Hk. unfold InPlace.load_geo_data. rewrite Hk.
  by rewrite length_app, <-app_assoc.
Qed.

Local Opaque mods.

(** On tables the caller holds in memory, the run with the frames as
    objects returns what [catch_delineate] returns on their contents. *)
Lemma catch_delineate_in_place fs kd fuel ls lr lc max_distance (σ : InPlace.store)
    sites streams catch :
  σ !! ls = Some (InPlace.SiteFrame sites) →
  σ !! lr = Some (InPlace.StreamFrame streams) →
  σ !! lc = Some (InPlace.CatchFrame catch) →
  (InPlace.catch_delineate fs kd fuel (InPlace.Frame ls) (InPlace.Frame lr) (InPlace.Frame lc)
     max_distance σ).1
  = catch_delineate kd fuel sites streams catch max_distance.
Proof.
  intros Hls Hlr Hlc. unfold InPlace.catch_delineate.
  pose proof (lookup_lt_Some _ _ _ Hls) as Hls'.
  pose proof (lookup_lt_Some _ _ _ Hlr) as Hlr'.
  unfold InPlace.bind at 1. rewrite <-(app_nil_r σ) at 1.
  rewrite (load_frame_app fs σ [] lc (InPlace.CatchFrame catch)) by (by rewrite app_nil_r).
  unfold InPlace.bind at 1.
  rewrite (load_frame_app fs σ _ lr (InPlace.StreamFrame streams))
    by (by rewrite lookup_app_l).
  unfold InPlace.bind at 1.
  rewrite (load_frame_app fs σ _ ls (InPlace.SiteFrame sites))
    by (by rewrite lookup_app_l).
  simpl length. simpl app.
  unfold InPlace.bind at 1.
  unfold InPlace.simplify_geometry, InPlace.bind at 1, InPlace.sites_at, InPlace.assign.
  rewrite lookup_app_plus. simpl.
  rewrite list_insert_id by (by rewrite lookup_app_plus).
  unfold InPlace.bind at 1.
  rewrite (mods_loop_frame _ mods streams) by (by rewrite lookup_app_plus).
  rewrite insert_app_r. simpl.
  unfold InPlace.bind at 1.
  rewrite (load_frame_app fs σ _ _ (InPlace.StreamFrame (make_mods mods streams)))
    by (by rewrite lookup_app_plus).
  unfold InPlace.bind at 1.
  rewrite (load_frame_app fs σ _ _ (InPlace.StreamFrame (make_mods mods streams)))
    by (by rewrite lookup_app_plus).
  unfold InPlace.bind at 1.
  rewrite (load_frame_app fs σ _ (length σ + 0) (InPlace.CatchFrame catch))
    by (by rewrite lookup_app_plus).
  simpl length. simpl app.
  unfold InPlace.bind, InPlace.sites_at, InPlace.streams_at, InPlace.catch_at, InPlace.lift.
  do 3 (rewrite lookup_app_plus; simpl). done.
Qed.

Local Transparent mods.

(** C6.  Whatever the store and the three sources, every frame the
    caller holds is after the run of [catch_delineate] what it was
    before: the tables are loaded as copies and the assignments in place
    fall on the copies.  In particular, loading a stream table and
    running the loop of modifications, for any dictionary of
    modifications, leaves the store as it was and adds one frame, the
    modified copy. *)
Theorem overrides_on_a_copy (fs : gmap string InPlace.frame) (kd : matcher) (fuel : nat)
    (sites_shp rec_streams_shp rec_catch_shp : InPlace.source) (max_distance : bound)
    (σ : InPlace.store) :
  (∀ l f, σ !! l = Some f →
     (InPlace.catch_delineate fs kd fuel sites_shp rec_streams_shp rec_catch_shp max_distance σ).2
       !! l = Some f) ∧
  (∀ ms l rows, σ !! l = Some (InPlace.StreamFrame rows) →
     InPlace.bind (InPlace.load_geo_data fs (InPlace.Frame l)) (λ rec_streams,
       InPlace.bind (InPlace.mods_loop rec_streams ms) (λ _,
         InPlace.streams_at rec_streams)) σ
     = (Ok (make_mods ms rows), σ ++ [InPlace.StreamFrame (make_mods ms rows)])).
Proof.
  split.
  - intros l f Hl.
    destruct (grows_catch_delineate (length σ) fs kd fuel sites_shp rec_streams_shp
                rec_catch_shp max_distance σ) as [[_ Hext] _]; [done|].
    rewrite Hext; [done|]. by eapply lookup_lt_Some.
  - intros ms l rows Hl. unfold InPlace.bind at 1, InPlace.load_geo_data. rewrite Hl.
    unfold InPlace.bind.
    rewrite (mods_loop_frame _ ms rows) by (by rewrite list_lookup_middle).
    unfold InPlace.streams_at.
    rewrite list_lookup_insert_eq by (rewrite length_app; simpl; lia).
    f_equal. replace (length σ) with (length σ + 0)%nat at 1 by lia.
    by rewrite insert_app_r.
Qed.

Lemma overrides_on_a_copy_witness :
  (∀ l f, [InPlace.SiteFrame [mkSite 100 (10, 1)]; InPlace.StreamFrame three_reaches;
            InPlace.CatchFrame [mkCatch 2 (strip 3 1)]] !! l = Some f →
     (InPlace.catch_delineate ∅ kd_nearest 3 (InPlace.Frame 0) (InPlace.Frame 1) (InPlace.Frame 2)
        Inf
        [InPlace.SiteFrame [mkSite 100 (10, 1)]; InPlace.StreamFrame three_reaches;
         InPlace.CatchFrame [mkCatch 2 (strip 3 1)]]).2 !! l = Some f) ∧
  InPlace.bind (InPlace.load_geo_data ∅ (InPlace.Frame 1)) (λ rec_streams,
    InPlace.bind (InPlace.mods_loop rec_streams [(1, [(col_NZTNODE, 30)])]) (λ _,
      InPlace.streams_at rec_streams))
    [InPlace.SiteFrame [mkSite 100 (10, 1)]; InPlace.StreamFrame three_reaches;
     InPlace.CatchFrame [mkCatch 2 (strip 3 1)]]
  = (Ok (make_mods [(1, [(col_NZTNODE, 30)])] three_reaches),
     [InPlace.SiteFrame [mkSite 100 (10, 1)]; InPlace.StreamFrame three_reaches;
      InPlace.CatchFrame [mkCatch 2 (strip 3 1)]]
     ++ [InPlace.StreamFrame (make_mods [(1, [(col_NZTNODE, 30)])] three_reaches)]).
Proof.
  destruct (overrides_on_a_copy ∅ kd_nearest 3 (InPlace.Frame 0) (InPlace.Frame 1)
              (InPlace.Frame 2) Inf
              [InPlace.SiteFrame [mkSite 100 (10, 1)]; InPlace.StreamFrame three_reaches;
               InPlace.CatchFrame [mkCatch 2 (strip 3 1)]]) as [Hframe Hcopy].
  split; [exact Hframe|].
  exact (Hcopy [(1, [(col_NZTNODE, 30)])] 1%nat three_reaches eq_refl).
Defined.

(** * find_upstream: its errors, its rows and its batches *)


(** The rows the loop gathers, round by round. *)
Lemma concat_iter_nil rec n :
  concat ((λ k, Nat.iter k (flowing_into rec) []) <$> seq 0 n) = [].
Proof.
  induction n as [|n IH]; [done|].
  rewrite seq_S, fmap_app, concat_app, IH. simpl.
  by rewrite iter_flowing_nil.
Qed.

Lemma while_up_levels fuel rec reach1 up1 out :
  while_up fuel rec reach1 up1 = Some out →
  out = reach1 ++ concat ((λ k, Nat.iter k (flowing_into rec) up1) <$> seq 0 fuel).
Proof.
  revert reach1 up1. induction fuel as [|fuel IH]; intros reach1 up1.
  - destruct up1; simpl; [|done]. intros [= <-]. by rewrite app_nil_r.
  - destruct up1 as [|u up1].
    + cbn [while_up]. intros [= <-]. by rewrite concat_iter_nil, app_nil_r.
    + cbn [while_up]. intros Hw. apply IH in Hw as ->.
      rewrite <-app_assoc. cbn [seq fmap list_fmap concat Nat.iter nat_rect]. do 2 f_equal.
      rewrite <-fmap_S_seq, <-list_fmap_compose.
      f_equal. apply list_fmap_ext. intros _ k _. symmetry. apply (Nat.iter_succ_r k).
Qed.

Lemma trace_from_levels fuel rec i out :
  trace_from fuel rec i = Ok out →
  out = mkUpRow i <$> concat (level rec i <$> seq 0 (S fuel)).
Proof.
  intros (rows & Hw & _ & ->)%trace_from_Ok. f_equal. apply while_up_levels in Hw as ->.
  simpl. f_equal. rewrite <-fmap_S_seq, <-list_fmap_compose.
  f_equal. apply list_fmap_ext. intros _ k _. symmetry. apply (Nat.iter_succ_r k).
Qed.

(** X2.  The table traced from one start reach lists the reaches
    breadth first: the rows with the start id in the order of the table,
    then the reaches that flow into them, then the reaches that flow into
    those, round after round until a round finds none.  A reach stands
    once in every round that meets it, so once for every length of flow
    path that leads from it to the start reach. *)
Theorem find_upstream_breadth_first (fuel : nat) (rec_streams : list Stream) (i : Z)
    (out : list UpRow) :
  find_upstream fuel (PyList [i]) rec_streams = Ok out →
  level (attrs <$> rec_streams) i (S fuel) = [] ∧
  out = mkUpRow i <$> concat (level (attrs <$> rec_streams) i <$> seq 0 (S fuel)).
Proof.
  rewrite find_upstream_one. intros Ht.
  split; [apply trace_from_bound; by rewrite Ht|by apply trace_from_levels].
Qed.

Lemma find_upstream_breadth_first_witness :
  level (attrs <$> two_paths) 1 4 = [] ∧
  [mkUpRow 1 (mkReach 1 10 11); mkUpRow 1 (mkReach 2 20 10); mkUpRow 1 (mkReach 4 30 10);
   mkUpRow 1 (mkReach 3 20 30); mkUpRow 1 (mkReach 5 40 20); mkUpRow 1 (mkReach 5 40 20)]
  = mkUpRow 1 <$> concat (level (attrs <$> two_paths) 1 <$> seq 0 4).
Proof.
  apply (find_upstream_breadth_first 3 two_paths 1). reflexivity.
Defined.

Lemma find_upstream_elem fuel nzreach rec_streams ids out :
  reach_ids nzreach = Some ids →
  find_upstream fuel nzreach rec_streams = Ok out →
  ∀ u, u ∈ out ↔
       start u ∈ ids ∧ upstream (attrs <$> rec_streams) (start u) (up_reach u).
Proof.
  intros Hids (ids' & lst & Hids' & _ & Hm & ->)%find_upstream_Ok u.
  rewrite Hids in Hids'. injection Hids' as <-.
  apply trace_all_Ok in Hm. rewrite elem_of_concat. split.
  - intros (l & Hl & Hu). apply list_elem_of_lookup in Hl as [n Hn].
    destruct (Forall2_lookup_r _ _ _ _ _ Hm Hn) as (j & Hj & Ht).
    pose proof (proj1 (trace_from_elem _ _ _ _ Ht u) Hu) as [Hst Hup]. rewrite Hst.
    split; [by eapply list_elem_of_lookup_2|done].
  - intros [Hin Hup]. apply list_elem_of_lookup in Hin as [n Hn].
    destruct (Forall2_lookup_l _ _ _ _ _ Hm Hn) as (l & Hl & Ht).
    exists l. split; [by eapply list_elem_of_lookup_2|].
    by apply (trace_from_elem _ _ _ _ Ht).
Qed.

(** X3.  Whatever the start ids and the container they come in, the
    table [find_upstream] returns holds a row for a start id and a reach
    exactly when the id is one of those passed and the reach is upstream
    of it, the start reach included: every row is a reach of the table
    under one of the requested ids, and none is missing. *)
Theorem find_upstream_batch (fuel : nat) (nzreach : nzreach_arg) (rec_streams : list Stream)
    (ids : list Z) (out : list UpRow) :
  reach_ids nzreach = Some ids →
  find_upstream fuel nzreach rec_streams = Ok out →
  ∀ u, u ∈ out ↔
       start u ∈ ids ∧ upstream (attrs <$> rec_streams) (start u) (up_reach u).
Proof. apply find_upstream_elem. Qed.

Lemma find_upstream_batch_witness :
  mkUpRow 2 (mkReach 1 10 20)
    ∈ [mkUpRow 3 (mkReach 3 25 30); mkUpRow 2 (mkReach 2 20 30); mkUpRow 2 (mkReach 1 10 20)] ↔
  start (mkUpRow 2 (mkReach 1 10 20)) ∈ [3; 2] ∧
  upstream (attrs <$> three_reaches) (start (mkUpRow 2 (mkReach 1 10 20)))
    (up_reach (mkUpRow 2 (mkReach 1 10 20))).
Proof.
  apply (find_upstream_batch 3 (Series [3; 2]) three_reaches [3; 2]
           [mkUpRow 3 (mkReach 3 25 30); mkUpRow 2 (mkReach 2 20 30); mkUpRow 2 (mkReach 1 10 20)]
           eq_refl eq_refl (mkUpRow 2 (mkReach 1 10 20))).
Defined.

(** X4.  The start ids are traced one after the other and the tables
    put end to end: the result for two lists of ids joined is the result
    for the first followed by the result for the second, and an id passed
    twice has its rows twice. *)
Theorem find_upstream_app (fuel : nat) (rec_streams : list Stream) (ids1 ids2 : list Z)
    (out1 out2 : list UpRow) :
  find_upstream fuel (PyList ids1) rec_streams = Ok out1 →
  find_upstream fuel (PyList ids2) rec_streams = Ok out2 →
  find_upstream fuel (PyList (ids1 ++ ids2)) rec_streams = Ok (out1 ++ out2).
Proof.
  intros (? & lst1 & [= <-] & Hne & Hm1 & ->)%find_upstream_Ok.
  intros (? & lst2 & [= <-] & _ & Hm2 & ->)%find_upstream_Ok.
  apply find_upstream_Ok. exists (ids1 ++ ids2), (lst1 ++ lst2).
  split; [done|]. split; [by destruct ids1|]. split; [|by rewrite concat_app].
  apply trace_all_Ok. apply Forall2_app; by apply trace_all_Ok.
Qed.

Lemma find_upstream_app_witness :
  find_upstream 3 (PyList ([2] ++ [2; 3])) three_reaches
  = Ok ([mkUpRow 2 (mkReach 2 20 30); mkUpRow 2 (mkReach 1 10 20)] ++
        [mkUpRow 2 (mkReach 2 20 30); mkUpRow 2 (mkReach 1 10 20); mkUpRow 3 (mkReach 3 25 30)]).
Proof. apply (find_upstream_app 3 three_reaches [2] [2; 3]); reflexivity. Defined.

(** * A table without bifurcations *)

Section Tree.
Context (rec : list Reach).
Hypothesis ids_distinct : NoDup (NZREACH <$> rec).
Hypothesis fnodes_distinct : NoDup (NZFNODE <$> rec).

Lemma level_in_rec i k r : r ∈ level rec i k → r ∈ rec.
Proof. intros Hr. eapply upstream_in_rec, level_upstream, Hr. Qed.

Lemma NoDup_level i k : NoDup (level rec i k).
Proof.
  assert (NoDup rec) as Hnd by (by eapply NoDup_fmap_1).
  unfold level. destruct k as [|k]; simpl; by apply NoDup_filter.
Qed.

(** A reach met after [k] rounds and again after [k + m] rounds leads,
    along its one way downstream, to a start reach met again after [m]
    rounds. *)
Lemma level_overlap i k m r :
  r ∈ level rec i k → r ∈ level rec i (k + m) →
  ∃ s, s ∈ level rec i 0 ∧ s ∈ level rec i m.
Proof.
  revert r. induction k as [|k IH]; intros r Hk Hkm; [by exists r|].
  apply elem_of_level_S in Hk as (r1 & Hr1 & [_ Hf1]).
  change (S k + m)%nat with (S (k + m)) in Hkm.
  apply elem_of_level_S in Hkm as (r2 & Hr2 & [_ Hf2]).
  assert (r1 = r2) as <-.
  { apply (NoDup_fmap_eq NZFNODE rec); [done|by eapply level_in_rec..|congruence]. }
  by apply (IH r1).
Qed.

Lemma level_0_again i m s n :
  s ∈ level rec i 0 → s ∈ level rec i m → s ∈ level rec i (n * m).
Proof.
  intros H0 Hm.
  assert (level rec i 0 ⊆ level rec i m) as Hsub.
  { intros r [Hr Hid]%elem_of_level_0. apply elem_of_level_0 in H0 as [Hs Hids].
    rewrite (NoDup_fmap_eq NZREACH rec r s); [done..|congruence]. }
  induction n as [|n IHn]; [done|].
  change (S n * m)%nat with (m + n * m)%nat. rewrite Nat.add_comm.
  rewrite <-level_shift.
  apply (iter_flowing_mono rec (n * m) (level rec i 0) (level rec i m) Hsub).
  by rewrite level_shift, Nat.add_0_r.
Qed.

Lemma levels_disjoint i n j k r :
  level rec i n = [] → (j < k)%nat → r ∈ level rec i j → r ∈ level rec i k → False.
Proof.
  intros Hn Hjk Hj Hk.
  replace k with (j + (k - j))%nat in Hk by lia.
  destruct (level_overlap i j (k - j) r Hj Hk) as (s & Hs0 & Hsm).
  pose proof (level_0_again i (k - j) s n Hs0 Hsm) as Hin.
  unfold level in *.
  rewrite (iter_flowing_empty_le rec n (n * (k - j))) in Hin; [|nia|done].
  by apply not_elem_of_nil in Hin.
Qed.

End Tree.

Lemma NoDup_concat_seq {A} (L : nat → list A) (n : nat) :
  (∀ k, NoDup (L k)) →
  (∀ j k x, (j < k)%nat → x ∈ L j → x ∈ L k → False) →
  NoDup (concat (L <$> seq 0 n)).
Proof.
  intros Hnd Hdisj. induction n as [|n IH]; [constructor|].
  rewrite seq_S, fmap_app, concat_app. simpl. rewrite app_nil_r.
  apply NoDup_app. split; [done|]. split; [|done].
  intros x (l & (j & -> & Hj%elem_of_seq)%list_elem_of_fmap & Hx)%elem_of_concat Hxn.
  apply (Hdisj j n x); [lia|done..].
Qed.

(** X5.  In a table whose reach ids are distinct and where no two
    reaches leave the same node, so that every reach has one way
    downstream, the table traced from a start reach lists no reach
    twice. *)
Theorem find_upstream_NoDup (fuel : nat) (rec_streams : list Stream) (i : Z)
    (out : list UpRow) :
  NoDup (NZREACH ∘ attrs <$> rec_streams) →
  NoDup (NZFNODE ∘ attrs <$> rec_streams) →
  find_upstream fuel (PyList [i]) rec_streams = Ok out →
  NoDup out.
Proof.
  rewrite !list_fmap_compose, find_upstream_one. intros Hids Hfn Ht.
  assert (level (attrs <$> rec_streams) i (S fuel) = []) as Hend
    by (apply trace_from_bound; by rewrite Ht).
  apply trace_from_levels in Ht as ->.
  apply NoDup_fmap_2; [by intros ?? [=]|].
  apply NoDup_concat_seq; [by apply NoDup_level|].
  intros j k r. by apply (levels_disjoint _ Hids Hfn i (S fuel)).
Qed.

Lemma find_upstream_NoDup_witness :
  NoDup [mkUpRow 2 (mkReach 2 20 30); mkUpRow 2 (mkReach 1 10 20)].
Proof.
  apply (find_upstream_NoDup 3 three_reaches 2).
  - vm_compute. repeat constructor; set_solver.
  - vm_compute. repeat constructor; set_solver.
  - reflexivity.
Defined.

(** * The three modifications of catch_delineate *)

Lemma make_mods_corrected rec_streams : make_mods mods rec_streams = corrected <$> rec_streams.
Proof.
  unfold make_mods, mods. cbn [foldl]. unfold apply_mod.
  rewrite <-!list_fmap_compose. apply list_fmap_ext. intros _ [[k f t] c] _.
  unfold corrected. cbn.
  repeat (case_decide; cbn in * ); try done; try lia; naive_solver lia.
Qed.

Lemma corrected_idemp s : corrected (corrected s) = corrected s.
Proof.
  destruct s as [[k f t] c]. unfold corrected. cbn.
  repeat (case_decide; cbn in * ); try done; try lia; naive_solver lia.
Qed.

Lemma make_mods_length ms rec_streams : length (make_mods ms rec_streams) = length rec_streams.
Proof.
  rewrite <-(length_fmap (NZREACH ∘ attrs) (make_mods ms rec_streams)), make_mods_ids.
  apply length_fmap.
Qed.

(** X7.  On every stream table the modifications of [catch_delineate]
    keep the rows in number and in place and change one column only: a
    row of reach 13053151 gets the downstream node 13055874, a row of
    reach 13048353 or 13048498 gets the downstream node 13048851, and
    every other row, as the reach id, the upstream node and the centroid
    of every row, stays as it was. *)
Theorem make_mods_rows (rec_streams : list Stream) :
  length (make_mods mods rec_streams) = length rec_streams ∧
  ∀ n s, rec_streams !! n = Some s →
    ∃ s', make_mods mods rec_streams !! n = Some s' ∧
          NZREACH (attrs s') = NZREACH (attrs s) ∧
          NZFNODE (attrs s') = NZFNODE (attrs s) ∧
          centroid s' = centroid s ∧
          NZTNODE (attrs s') =
            if decide (NZREACH (attrs s) = 13053151) then 13055874
            else if decide (NZREACH (attrs s) = 13048353 ∨ NZREACH (attrs s) = 13048498)
                 then 13048851
                 else NZTNODE (attrs s).
Proof.
  rewrite make_mods_corrected. split; [by rewrite length_fmap|].
  intros n s Hn. exists (corrected s). rewrite list_lookup_fmap, Hn. split; [done|].
  unfold corrected. by repeat case_decide.
Qed.

(** X8.  The modifications made twice are the modifications made once,
    so a stream table that already carries them is delineated as the
    table before them is. *)
Theorem catch_delineate_precorrected (kd : matcher) (fuel : nat) (sites_shp : list Site)
    (rec_streams_shp : list Stream) (rec_catch_shp : list Catch) (max_distance : bound) :
  make_mods mods (make_mods mods rec_streams_shp) = make_mods mods rec_streams_shp ∧
  catch_delineate kd fuel sites_shp (make_mods mods rec_streams_shp) rec_catch_shp max_distance
  = catch_delineate kd fuel sites_shp rec_streams_shp rec_catch_shp max_distance.
Proof.
  assert (make_mods mods (make_mods mods rec_streams_shp) = make_mods mods rec_streams_shp) as Hid.
  { rewrite !make_mods_corrected, <-list_fmap_compose. apply list_fmap_ext.
    intros _ s _. apply corrected_idemp. }
  split; [done|]. unfold catch_delineate. by rewrite Hid.
Qed.

(** * The rows of the extraction and of the aggregation *)

Lemma sorted_bind_key {A B} (key : A → Z) (l : list A) (f : A → list B) :
  StronglySorted Z.le (key <$> l) →
  StronglySorted Z.le (l ≫= λ a, (λ _, key a) <$> f a).
Proof.
  induction l as [|a l IH]; csimpl; [constructor|].
  intros [Hs Hall]%StronglySorted_inv. specialize (IH Hs).
  induction (f a) as [|b bs IHb]; csimpl; [done|].
  constructor; [done|]. apply Forall_app. split.
  - apply Forall_forall. intros x (? & -> & _)%list_elem_of_fmap. lia.
  - apply Forall_forall.
    intros x (a' & (? & -> & _)%list_elem_of_fmap & Ha')%list_elem_of_bind.
    rewrite Forall_forall in Hall. apply Hall, list_elem_of_fmap. by exists a'.
Qed.

(** The join of [extract_catch], key by key. *)
Lemma extract_catch_bind reaches rec_catch_shp :
  ∃ keys, StronglySorted Z.le keys ∧ NoDup keys ∧
    (∀ k, k ∈ NZREACH ∘ up_reach <$> reaches →
          k ∈ keys ↔ in_int32 k ∧ k ∈ catch_NZREACH <$> rec_catch_shp) ∧
    rc_row <$> extract_catch reaches rec_catch_shp
    = keys ≫= λ k, filter (λ r, NZREACH (up_reach r) = k) reaches.
Proof.
  unfold extract_catch.
  set (sites := int32 <$> unique (NZREACH ∘ up_reach <$> reaches)).
  set (catch1 := filter (λ c, catch_NZREACH c ∈ sites) rec_catch_shp).
  rewrite dissolve_eq.
  set (keys := group_keys (fst <$> ((λ c, (catch_NZREACH c, catch_geometry c)) <$> catch1))).
  exists keys. split; [apply group_keys_sorted|]. split; [apply NoDup_group_keys|]. split.
  - intros k Hk. unfold keys. rewrite elem_of_group_keys, <-list_fmap_compose.
    rewrite list_elem_of_fmap. unfold catch1. setoid_rewrite list_elem_of_filter.
    assert (k ∈ sites ↔ in_int32 k) as Hsites.
    { unfold sites. rewrite list_elem_of_fmap. split.
      - intros (z & -> & _). apply int32_range.
      - intros Hr. exists k. by rewrite int32_id, elem_of_unique. }
    rewrite list_elem_of_fmap. split.
    + intros (c & -> & Hc & Hin). simpl in *. split; [by apply Hsites|by exists c].
    + intros [Hr (c & -> & Hin)]. exists c. simpl. split; [done|]. split; [by apply Hsites|done].
  - rewrite list_fmap_bind, fmap_bind_comm. apply bind_ext_in. intros k _. simpl.
    rewrite <-list_fmap_compose. apply list_fmap_id.
Qed.

(** X9.  [extract_catch] neither repeats nor invents a row: its rows are
    the rows of the upstream table whose reach id lies within int32 and
    has a catchment polygon, each once however many polygons the reach
    has, so never more rows than the upstream table; and they come in the
    order of the reach ids, not in the order they were traced in. *)
Theorem extract_catch_order (reaches : list UpRow) (rec_catch_shp : list Catch) :
  rc_row <$> extract_catch reaches rec_catch_shp
  ≡ₚ filter (λ r, in_int32 (NZREACH (up_reach r)) ∧
                  NZREACH (up_reach r) ∈ catch_NZREACH <$> rec_catch_shp) reaches ∧
  StronglySorted Z.le (NZREACH ∘ up_reach ∘ rc_row <$> extract_catch reaches rec_catch_shp) ∧
  (length (extract_catch reaches rec_catch_shp) ≤ length reaches)%nat.
Proof.
  destruct (extract_catch_bind reaches rec_catch_shp) as (keys & Hs & Hnd & Hkeys & Heq).
  assert (rc_row <$> extract_catch reaches rec_catch_shp
          ≡ₚ filter (λ r, in_int32 (NZREACH (up_reach r)) ∧
                          NZREACH (up_reach r) ∈ catch_NZREACH <$> rec_catch_shp) reaches) as Hperm.
  { rewrite Heq, bind_filter_Permutation by done.
    apply eq_subrelation; [apply _|]. apply filter_ext_in. intros r Hr. apply Hkeys.
    apply list_elem_of_fmap. by exists r. }
  split; [done|]. split.
  - rewrite (list_fmap_compose rc_row), Heq, fmap_bind_comm.
    rewrite (bind_ext_in _
      (λ k, (λ _, id k) <$> filter (λ r, NZREACH (up_reach r) = k) reaches)).
    + apply sorted_bind_key. by rewrite list_fmap_id.
    + intros k _. apply list_fmap_ext.
      by intros _ r [? _]%list_elem_of_lookup_2%list_elem_of_filter.
  - rewrite <-(length_fmap rc_row), Hperm. apply length_filter.
Qed.

Lemma agg_catch_eq rec_catch :
  agg_catch rec_catch
  = (λ k, mkShed (int32 k) (⋃ group_of rec_catch k) (area (⋃ group_of rec_catch k)))
      <$> group_keys (start ∘ rc_row <$> rec_catch).
Proof.
  unfold agg_catch, group_of. rewrite dissolve_eq, <-!list_fmap_compose.
  apply list_fmap_ext. intros _ k _. simpl.
  by rewrite filter_fmap, <-list_fmap_compose.
Qed.

(** X10.  [agg_catch] looks at which rows its table has, not at how
    often or in which order: two tables with the same rows aggregate to
    the same table.  A reach the trace lists twice is therefore counted
    once in the catchment and in its area. *)
Theorem agg_catch_same_rows (rec_catch1 rec_catch2 : list ReachCatch) :
  (∀ rc, rc ∈ rec_catch1 ↔ rc ∈ rec_catch2) →
  agg_catch rec_catch1 = agg_catch rec_catch2.
Proof.
  intros Hrows. rewrite !agg_catch_eq.
  rewrite (group_keys_ext (start ∘ rc_row <$> rec_catch1) (start ∘ rc_row <$> rec_catch2)).
  - apply list_fmap_ext. intros _ k _.
    assert (⋃ group_of rec_catch1 k = ⋃ group_of rec_catch2 k) as ->; [|done].
    apply set_eq. intros x. unfold group_of. rewrite !elem_of_union_list.
    setoid_rewrite list_elem_of_fmap. setoid_rewrite list_elem_of_filter.
    naive_solver.
  - intros k. rewrite !list_elem_of_fmap. naive_solver.
Qed.

Lemma agg_catch_same_rows_witness :
  agg_catch [mkReachCatch (strip 5 0) (mkUpRow 2 (mkReach 1 10 20));
             mkReachCatch (strip 3 1) (mkUpRow 2 (mkReach 2 20 30));
             mkReachCatch (strip 5 0) (mkUpRow 2 (mkReach 1 10 20))]
  = agg_catch [mkReachCatch (strip 3 1) (mkUpRow 2 (mkReach 2 20 30));
               mkReachCatch (strip 5 0) (mkUpRow 2 (mkReach 1 10 20))].
Proof.
  apply (agg_catch_same_rows
           [mkReachCatch (strip 5 0) (mkUpRow 2 (mkReach 1 10 20));
            mkReachCatch (strip 3 1) (mkUpRow 2 (mkReach 2 20 30));
            mkReachCatch (strip 5 0) (mkUpRow 2 (mkReach 1 10 20))]
           [mkReachCatch (strip 3 1) (mkUpRow 2 (mkReach 2 20 30));
            mkReachCatch (strip 5 0) (mkUpRow 2 (mkReach 1 10 20))]).
  intros rc. rewrite !elem_of_cons. pose proof (not_elem_of_nil rc). tauto.
Defined.

Lemma area_union_list_le (l : list Polygon) : area (⋃ l) ≤ total_area l.
Proof.
  induction l as [|g l IH]; [by vm_compute|].
  rewrite union_list_cons. unfold area in *. cbn [total_area foldr].
  fold (total_area l). rewrite size_union_alt.
  assert (size (⋃ l ∖ g) ≤ size (⋃ l))%nat by (apply subseteq_size; set_solver).
  unfold area. lia.
Qed.

Lemma area_union_list_disjoint (l : list Polygon) :
  pairwise_disjoint l → area (⋃ l) = total_area l.
Proof.
  induction l as [|g l IH]; [by vm_compute|].
  intros [Hg Hl]. rewrite union_list_cons. unfold area in *. cbn [total_area foldr].
  fold (total_area l). rewrite size_union.
  - rewrite <-IH by done. unfold area. lia.
  - intros x Hx (g' & Hg' & Hx')%elem_of_union_list.
    rewrite Forall_forall in Hg. by apply (Hg g' Hg' x).
Qed.

(** X11.  Every row of [agg_catch] stands for one start id: its polygon
    is the union of the polygons of the rows with that start id, and its
    area is the area of that union, which is never more than the areas of
    those polygons added up and is their sum when no two of them
    overlap. *)
Theorem agg_catch_area (rec_catch : list ReachCatch) (sh : Shed) :
  sh ∈ agg_catch rec_catch →
  ∃ k, k ∈ start ∘ rc_row <$> rec_catch ∧
       shed_start sh = int32 k ∧
       shed_geometry sh = ⋃ group_of rec_catch k ∧
       shed_area sh = area (shed_geometry sh) ∧
       0 ≤ shed_area sh ≤ total_area (group_of rec_catch k) ∧
       (pairwise_disjoint (group_of rec_catch k) →
        shed_area sh = total_area (group_of rec_catch k)).
Proof.
  rewrite agg_catch_eq. intros (k & -> & Hk)%list_elem_of_fmap.
  rewrite elem_of_group_keys in Hk.
  exists k. cbn [shed_start shed_geometry shed_area]. do 4 (split; [done|]).
  split; [|apply area_union_list_disjoint].
  split; [unfold area; lia|apply area_union_list_le].
Qed.

Lemma agg_catch_area_witness :
  ∃ k, k ∈ start ∘ rc_row <$> [mkReachCatch (strip 5 0) (mkUpRow 2 (mkReach 1 10 20));
                                mkReachCatch (strip 3 1) (mkUpRow 2 (mkReach 2 20 30))] ∧
       shed_start (mkShed 2 (strip 5 0 ∪ strip 3 1) 8) = int32 k ∧
       shed_geometry (mkShed 2 (strip 5 0 ∪ strip 3 1) 8)
       = ⋃ group_of [mkReachCatch (strip 5 0) (mkUpRow 2 (mkReach 1 10 20));
                     mkReachCatch (strip 3 1) (mkUpRow 2 (mkReach 2 20 30))] k ∧
       shed_area (mkShed 2 (strip 5 0 ∪ strip 3 1) 8)
       = area (shed_geometry (mkShed 2 (strip 5 0 ∪ strip 3 1) 8)) ∧
       0 ≤ shed_area (mkShed 2 (strip 5 0 ∪ strip 3 1) 8)
         ≤ total_area (group_of [mkReachCatch (strip 5 0) (mkUpRow 2 (mkReach 1 10 20));
                                 mkReachCatch (strip 3 1) (mkUpRow 2 (mkReach 2 20 30))] k) ∧
       (pairwise_disjoint (group_of [mkReachCatch (strip 5 0) (mkUpRow 2 (mkReach 1 10 20));
                                     mkReachCatch (strip 3 1) (mkUpRow 2 (mkReach 2 20 30))] k) →
        shed_area (mkShed 2 (strip 5 0 ∪ strip 3 1) 8)
        = total_area (group_of [mkReachCatch (strip 5 0) (mkUpRow 2 (mkReach 1 10 20));
                                mkReachCatch (strip 3 1) (mkUpRow 2 (mkReach 2 20 30))] k)).
Proof.
  apply (agg_catch_area [mkReachCatch (strip 5 0) (mkUpRow 2 (mkReach 1 10 20));
                         mkReachCatch (strip 3 1) (mkUpRow 2 (mkReach 2 20 30))]).
  unfold agg_catch. rewrite dissolve_eq.
  replace (group_keys _) with [2] by (vm_compute; reflexivity).
  csimpl. eval_filter. csimpl.
  replace (int32 2) with 2 by (vm_compute; reflexivity).
  replace (strip 5 0 ∪ (strip 3 1 ∪ ∅)) with (strip 5 0 ∪ strip 3 1) by set_solver.
  replace (area (strip 5 0 ∪ strip 3 1)) with 8 by (vm_compute; reflexivity).
  left.
Defined.

Lemma agg_catch_keys rec_catch :
  (∀ rc, rc ∈ rec_catch → in_int32 (start (rc_row rc))) →
  shed_start <$> agg_catch rec_catch = group_keys (start ∘ rc_row <$> rec_catch).
Proof.
  intros Hrange.
  rewrite agg_catch_eq, <-list_fmap_compose. rewrite <-(list_fmap_id (group_keys _)) at 2.
  apply list_fmap_ext. intros _ k Hk%list_elem_of_lookup_2. simpl.
  apply elem_of_group_keys, list_elem_of_fmap in Hk as (rc & -> & Hrc).
  by apply int32_id, Hrange.
Qed.

(** X12.  When the start ids lie within int32, [agg_catch] returns one
    row for each start id of its table and no other, in increasing order
    of the start ids. *)
Theorem agg_catch_starts (rec_catch : list ReachCatch) :
  (∀ rc, rc ∈ rec_catch → in_int32 (start (rc_row rc))) →
  StronglySorted Z.le (shed_start <$> agg_catch rec_catch) ∧
  NoDup (shed_start <$> agg_catch rec_catch) ∧
  ∀ k, k ∈ shed_start <$> agg_catch rec_catch ↔ k ∈ start ∘ rc_row <$> rec_catch.
Proof.
  intros Hrange. rewrite agg_catch_keys by done.
  split; [apply group_keys_sorted|]. split; [apply NoDup_group_keys|].
  intros k. apply elem_of_group_keys.
Qed.

Lemma agg_catch_starts_witness :
  StronglySorted Z.le
    (shed_start <$> agg_catch [mkReachCatch (strip 4 2) (mkUpRow 3 (mkReach 3 25 30));
                               mkReachCatch (strip 3 1) (mkUpRow 2 (mkReach 2 20 30))]) ∧
  NoDup (shed_start <$> agg_catch [mkReachCatch (strip 4 2) (mkUpRow 3 (mkReach 3 25 30));
                                   mkReachCatch (strip 3 1) (mkUpRow 2 (mkReach 2 20 30))]) ∧
  ∀ k, k ∈ shed_start <$> agg_catch [mkReachCatch (strip 4 2) (mkUpRow 3 (mkReach 3 25 30));
                                     mkReachCatch (strip 3 1) (mkUpRow 2 (mkReach 2 20 30))]
       ↔ k ∈ start ∘ rc_row <$> [mkReachCatch (strip 4 2) (mkUpRow 3 (mkReach 3 25 30));
                                 mkReachCatch (strip 3 1) (mkUpRow 2 (mkReach 2 20 30))].
Proof.
  apply (agg_catch_starts [mkReachCatch (strip 4 2) (mkUpRow 3 (mkReach 3 25 30));
                           mkReachCatch (strip 3 1) (mkUpRow 2 (mkReach 2 20 30))]).
  intros rc Hrc. repeat (apply elem_of_cons in Hrc as [->|Hrc]; [by vm_compute|]).
  by apply not_elem_of_nil in Hrc.
Defined.

(** X13.  [extract_rec_catch] followed by [agg_rec_catch], as
    [rec_catch_del] chains them: the table has a row for a start id
    exactly when some reach traced from it has a catchment polygon and an
    id within int32, and the polygon of the row is the union of the
    catchments of those reaches, its area the area of that union. *)
Theorem agg_rec_catch_extract (reaches : list UpRow) (rec_catch_shp : list Catch) (sh : Shed) :
  sh ∈ CatchDel.agg_rec_catch (CatchDel.extract_rec_catch reaches rec_catch_shp) ↔
  ∃ k, (∃ u, drained rec_catch_shp reaches k u) ∧
       shed_start sh = int32 k ∧
       shed_area sh = area (shed_geometry sh) ∧
       ∀ x, x ∈ shed_geometry sh ↔
            ∃ u, drained rec_catch_shp reaches k u ∧
                 x ∈ catchment rec_catch_shp (NZREACH (up_reach u)).
Proof.
  change (CatchDel.agg_rec_catch (CatchDel.extract_rec_catch reaches rec_catch_shp))
    with (agg_catch (extract_catch reaches rec_catch_shp)).
  rewrite agg_catch_extract, list_elem_of_fmap. split.
  - intros (k & -> & Hk%elem_of_shed_keys). exists k. simpl.
    split; [done|]. split; [done|]. split; [done|]. intros x. apply elem_of_shed_geom.
  - intros (k & Hk & Hst & Har & Hg). exists k. split; [|by apply elem_of_shed_keys].
    assert (shed_geometry sh = shed_geom rec_catch_shp reaches k) as Hgeom.
    { apply set_eq. intros x. by rewrite Hg, elem_of_shed_geom. }
    destruct sh as [s g a]. simpl in *. by rewrite Hst, Har, Hgeom.
Qed.

(** * catch_delineate from the tables to the catchments *)

Lemma catch_delineate_Ok kd fuel sites_shp rec_streams_shp rec_catch_shp max_distance out :
  catch_delineate kd fuel sites_shp rec_streams_shp rec_catch_shp max_distance = Ok out →
  ∃ reaches,
    find_upstream fuel
      (NdArray (unique (seg_NZREACH <$> kd sites_shp (make_mods mods rec_streams_shp) max_distance)))
      (make_mods mods rec_streams_shp) = Ok reaches ∧
    out = merge_sites (agg_catch (extract_catch reaches rec_catch_shp))
            (kd sites_shp (make_mods mods rec_streams_shp) max_distance).
Proof.
  unfold catch_delineate, delineate_rows.
  destruct (find_upstream _ _ _) as [reaches| |]; [|done..]. intros [= <-]. by exists reaches.
Qed.

Lemma matched_id (pts_seg : list SiteSeg) k :
  k ∈ unique (seg_NZREACH <$> pts_seg) ↔ ∃ seg, seg ∈ pts_seg ∧ seg_NZREACH seg = k.
Proof. rewrite elem_of_unique, list_elem_of_fmap. naive_solver. Qed.

(** A run that returns has traced every matched reach, so every matched
    reach id is an id of the table. *)
Lemma matched_in_table kd fuel sites_shp rec_streams_shp rec_catch_shp max_distance out seg :
  catch_delineate kd fuel sites_shp rec_streams_shp rec_catch_shp max_distance = Ok out →
  seg ∈ kd sites_shp (make_mods mods rec_streams_shp) max_distance →
  seg_NZREACH seg ∈ NZREACH ∘ attrs <$> rec_streams_shp.
Proof.
  intros (reaches & (ids & lst & [= <-] & _ & Hall & _)%find_upstream_Ok & _)%catch_delineate_Ok
    Hseg.
  apply trace_all_Ok_returns in Hall. rewrite Forall_forall in Hall.
  destruct (proj1 (returns_Ok _ _ _) (Hall (seg_NZREACH seg)
              (proj2 (matched_id _ _) (ex_intro _ seg (conj Hseg eq_refl))))) as [rows Hrows].
  apply trace_from_present in Hrows.
  by rewrite <-(make_mods_ids mods), list_fmap_compose.
Qed.

Lemma upstream_in_table ms rec_streams_shp k r :
  upstream (attrs <$> make_mods ms rec_streams_shp) k r →
  NZREACH r ∈ NZREACH ∘ attrs <$> rec_streams_shp.
Proof.
  intros Hr%upstream_in_rec. rewrite <-(make_mods_ids ms), list_fmap_compose.
  apply list_elem_of_fmap. by exists r.
Qed.

Lemma acyclic_returns fuel rec_streams i :
  i ∈ NZREACH ∘ attrs <$> rec_streams →
  acyclic_above (attrs <$> rec_streams) i → (length rec_streams ≤ fuel)%nat →
  returns fuel rec_streams i.
Proof.
  rewrite list_fmap_compose. intros Hi Hac Hfuel. apply returns_Ok.
  apply (trace_from_terminates _ fuel (length rec_streams)); [lia| |done].
  rewrite <-(length_fmap attrs). by apply acyclic_level_empty.
Qed.

Lemma cycle_never_returns fuel rec_streams i r :
  upstream (attrs <$> rec_streams) i r → on_cycle (attrs <$> rec_streams) r →
  ¬ returns fuel rec_streams i.
Proof.
  intros Hup Hc [out Hout]%returns_Ok.
  eapply cycle_level_nonempty; [done..|]. apply (trace_from_bound _ fuel). by rewrite Hout.
Qed.

(** X14.  [catch_delineate] returns a table as soon as one site is
    matched, every matched reach id is an id of the stream table, and the
    modified stream table has no cycle upstream of any matched reach:
    the loop then needs no more rounds than the table has rows. *)
Theorem catch_delineate_returns (kd : matcher) (fuel : nat) (sites_shp : list Site)
    (rec_streams_shp : list Stream) (rec_catch_shp : list Catch) (max_distance : bound) :
  kd sites_shp (make_mods mods rec_streams_shp) max_distance ≠ [] →
  (∀ seg, seg ∈ kd sites_shp (make_mods mods rec_streams_shp) max_distance →
          seg_NZREACH seg ∈ NZREACH ∘ attrs <$> rec_streams_shp) →
  (∀ seg, seg ∈ kd sites_shp (make_mods mods rec_streams_shp) max_distance →
          acyclic_above (attrs <$> make_mods mods rec_streams_shp) (seg_NZREACH seg)) →
  (length rec_streams_shp ≤ fuel)%nat →
  ∃ out, catch_delineate kd fuel sites_shp rec_streams_shp rec_catch_shp max_distance = Ok out.
Proof.
  intros Hne Hin Hac Hfuel. unfold catch_delineate, delineate_rows.
  rewrite find_upstream_returns; [by eexists| |].
  - by destruct (kd sites_shp _ max_distance).
  - apply Forall_forall. intros k (seg & Hseg & <-)%matched_id.
    apply acyclic_returns; [|by apply Hac|by rewrite make_mods_length].
    rewrite make_mods_ids. by apply Hin.
Qed.

Lemma catch_delineate_returns_witness :
  ∃ out, catch_delineate (fixed_matches [mkSiteSeg 100 (10, 1) 2]) 3 [] three_reaches
           [mkCatch 1 (strip 5 0); mkCatch 2 (strip 3 1)] Inf = Ok out.
Proof.
  apply (catch_delineate_returns (fixed_matches [mkSiteSeg 100 (10, 1) 2]) 3 [] three_reaches
           [mkCatch 1 (strip 5 0); mkCatch 2 (strip 3 1)] Inf).
  - discriminate.
  - intros seg ->%list_elem_of_singleton. by_eval.
  - intros seg _. apply three_reaches_acyclic.
  - simpl. lia.
Defined.

(** X15.  When every matched reach id is an id of the stream table, one
    matched site above which the modified stream table has a cycle keeps
    the whole batch from returning: the loop of that site never ends,
    whatever the bound, and the sites traced before it get no result
    either. *)
Theorem catch_delineate_diverges (kd : matcher) (fuel : nat) (sites_shp : list Site)
    (rec_streams_shp : list Stream) (rec_catch_shp : list Catch) (max_distance : bound)
    (seg : SiteSeg) (r : Reach) :
  (∀ seg', seg' ∈ kd sites_shp (make_mods mods rec_streams_shp) max_distance →
           seg_NZREACH seg' ∈ NZREACH ∘ attrs <$> rec_streams_shp) →
  seg ∈ kd sites_shp (make_mods mods rec_streams_shp) max_distance →
  upstream (attrs <$> make_mods mods rec_streams_shp) (seg_NZREACH seg) r →
  on_cycle (attrs <$> make_mods mods rec_streams_shp) r →
  catch_delineate kd fuel sites_shp rec_streams_shp rec_catch_shp max_distance = OutOfFuel.
Proof.
  intros Hin Hseg Hup Hc. unfold catch_delineate, delineate_rows.
  rewrite (find_upstream_diverges _ _ _ (seg_NZREACH seg)); [done| | |].
  - intros j (seg' & Hseg' & <-)%matched_id. rewrite make_mods_ids. by apply Hin.
  - apply matched_id. by exists seg.
  - by eapply cycle_never_returns.
Qed.

Lemma catch_delineate_diverges_witness :
  catch_delineate (fixed_matches [mkSiteSeg 100 (10, 1) 2; mkSiteSeg 101 (0, 0) 1]) 50 []
    [mkStream (mkReach 1 10 10) (0, 0); mkStream (mkReach 2 20 30) (10, 0)]
    [mkCatch 1 (strip 5 0); mkCatch 2 (strip 3 1)] Inf = OutOfFuel.
Proof.
  apply (catch_delineate_diverges (fixed_matches [mkSiteSeg 100 (10, 1) 2; mkSiteSeg 101 (0, 0) 1])
           50 [] [mkStream (mkReach 1 10 10) (0, 0); mkStream (mkReach 2 20 30) (10, 0)]
           [mkCatch 1 (strip 5 0); mkCatch 2 (strip 3 1)] Inf
           (mkSiteSeg 101 (0, 0) 1) (mkReach 1 10 10)).
  - intros seg' Hseg'. unfold fixed_matches in Hseg'.
    repeat (apply elem_of_cons in Hseg' as [->|Hseg']; [by_eval|]).
    by apply not_elem_of_nil in Hseg'.
  - unfold fixed_matches. right. left.
  - apply upstream_start; [by_eval|done].
  - apply tc_once. split; [by_eval|done].
Defined.

Lemma elem_of_catchment rec_catch_shp k x :
  x ∈ catchment rec_catch_shp k → k ∈ catch_NZREACH <$> rec_catch_shp.
Proof.
  unfold catchment. rewrite elem_of_union_list.
  intros (g & (c & -> & [Hk Hc]%list_elem_of_filter)%list_elem_of_fmap & _).
  apply list_elem_of_fmap. by exists c.
Qed.

(** In a table whose reach ids lie within int32, the traced rows that
    have a catchment polygon are the reaches that drain to the start
    reach. *)
Lemma drained_drains_to fuel ids rec_streams_shp rec_catch_shp reaches k :
  (∀ s, s ∈ rec_streams_shp → in_int32 (NZREACH (attrs s))) →
  find_upstream fuel (NdArray ids) (make_mods mods rec_streams_shp) = Ok reaches → k ∈ ids →
  (∃ u, drained rec_catch_shp reaches k u)
  ↔ ∃ r, drains_to (make_mods mods rec_streams_shp) rec_catch_shp k r.
Proof.
  intros H32 Hf Hk.
  pose proof (find_upstream_elem fuel (NdArray ids) _ ids reaches eq_refl Hf) as Hel.
  unfold drained, drains_to. split.
  - intros (u & [_ Hup]%Hel & <- & Hrange & Hc). by exists (up_reach u).
  - intros (r & Hup & Hc). exists (mkUpRow k r). split; [by apply Hel|].
    split; [done|]. split; [|done]. simpl.
    apply upstream_in_table, list_elem_of_fmap in Hup as (s & -> & Hs). by apply H32.
Qed.

Lemma catch_delineate_row kd fuel sites_shp rec_streams_shp rec_catch_shp max_distance out :
  (∀ s, s ∈ rec_streams_shp → in_int32 (NZREACH (attrs s))) →
  catch_delineate kd fuel sites_shp rec_streams_shp rec_catch_shp max_distance = Ok out →
  ∀ row, row ∈ out →
    (∃ seg, seg ∈ kd sites_shp (make_mods mods rec_streams_shp) max_distance ∧
            seg_site seg = out_site row ∧ seg_NZREACH seg = out_NZREACH row) ∧
    out_area row = area (out_geometry row) ∧
    ∀ x, x ∈ out_geometry row ↔
         ∃ r, upstream (attrs <$> make_mods mods rec_streams_shp) (out_NZREACH row) r ∧
              x ∈ catchment rec_catch_shp (NZREACH r).
Proof.
  intros H32 Hout row Hrow.
  assert (∀ seg, seg ∈ kd sites_shp (make_mods mods rec_streams_shp) max_distance →
                 in_int32 (seg_NZREACH seg)) as Hrange.
  { intros seg Hseg.
    apply (matched_in_table _ _ _ _ _ _ _ _ Hout), list_elem_of_fmap in Hseg as (s & -> & Hs).
    by apply H32. }
  destruct (catch_delineate_Ok _ _ _ _ _ _ _ Hout) as (reaches & Hf & ->).
  apply elem_of_merge_sites in Hrow as (sh & seg & Hsh & Hseg & Hid & ->).
  rewrite agg_catch_extract in Hsh. apply list_elem_of_fmap in Hsh as (k & -> & Hk).
  pose proof (find_upstream_elem _ (NdArray _) _ _ _ eq_refl Hf) as Hel. simpl in Hid. simpl.
  apply elem_of_shed_keys in Hk as (u0 & Hu0 & Hst0 & _).
  assert (k ∈ unique (seg_NZREACH <$> kd sites_shp (make_mods mods rec_streams_shp) max_distance))
    as Hkid by (rewrite <-Hst0; by apply Hel).
  assert (int32 k = k) as Hcast.
  { apply matched_id in Hkid as (seg' & Hseg' & <-). by apply int32_id, Hrange. }
  rewrite Hcast in *. split; [by exists seg|]. split; [done|].
  intros x. rewrite elem_of_shed_geom. unfold drained. split.
  - intros (u & (Hu & <- & Hr & _) & Hx). exists (up_reach u).
    split; [by apply Hel|done].
  - intros (r & Hup & Hx). exists (mkUpRow k r). simpl.
    split; [|done]. split; [by apply Hel|]. split; [done|]. split.
    + pose proof (upstream_in_table mods _ _ _ Hup) as (s & -> & Hs)%list_elem_of_fmap.
      by apply H32.
    + by eapply elem_of_catchment.
Qed.

(** X16.  In a stream table whose reach ids lie within int32, every row
    [catch_delineate] returns is the catchment of a matched site: it
    carries the site and the id of the reach the site was matched to,
    its polygon is the union of the catchment polygons of the reaches
    upstream of that reach in the modified stream table, the reach itself
    included, and its area is the area of that polygon. *)
Theorem catch_delineate_geometry (kd : matcher) (fuel : nat) (sites_shp : list Site)
    (rec_streams_shp : list Stream) (rec_catch_shp : list Catch) (max_distance : bound)
    (out : list Delineation) :
  (∀ s, s ∈ rec_streams_shp → in_int32 (NZREACH (attrs s))) →
  catch_delineate kd fuel sites_shp rec_streams_shp rec_catch_shp max_distance = Ok out →
  ∀ row, row ∈ out →
    (∃ seg, seg ∈ kd sites_shp (make_mods mods rec_streams_shp) max_distance ∧
            seg_site seg = out_site row ∧ seg_NZREACH seg = out_NZREACH row) ∧
    out_area row = area (out_geometry row) ∧
    ∀ x, x ∈ out_geometry row ↔
         ∃ r, upstream (attrs <$> make_mods mods rec_streams_shp) (out_NZREACH row) r ∧
              x ∈ catchment rec_catch_shp (NZREACH r).
Proof. apply catch_delineate_row. Qed.

Lemma three_reaches_int32 s : s ∈ three_reaches → in_int32 (NZREACH (attrs s)).
Proof.
  intros Hs. repeat (apply elem_of_cons in Hs as [->|Hs]; [by vm_compute|]).
  by apply not_elem_of_nil in Hs.
Qed.

Lemma catch_delineate_geometry_witness :
  (∃ seg, seg ∈ fixed_matches [mkSiteSeg 100 (10, 1) 2] [] (make_mods mods three_reaches) Inf ∧
          seg_site seg = out_site (mkDelineation 2 (strip 5 0 ∪ strip 3 1) 8 100) ∧
          seg_NZREACH seg = out_NZREACH (mkDelineation 2 (strip 5 0 ∪ strip 3 1) 8 100)) ∧
  out_area (mkDelineation 2 (strip 5 0 ∪ strip 3 1) 8 100)
  = area (out_geometry (mkDelineation 2 (strip 5 0 ∪ strip 3 1) 8 100)) ∧
  ∀ x, x ∈ out_geometry (mkDelineation 2 (strip 5 0 ∪ strip 3 1) 8 100) ↔
       ∃ r, upstream (attrs <$> make_mods mods three_reaches)
              (out_NZREACH (mkDelineation 2 (strip 5 0 ∪ strip 3 1) 8 100)) r ∧
            x ∈ catchment [mkCatch 1 (strip 5 0); mkCatch 2 (strip 3 1); mkCatch 3 (strip 4 2)]
                  (NZREACH r).
Proof.
  apply (catch_delineate_geometry (fixed_matches [mkSiteSeg 100 (10, 1) 2]) 3 [] three_reaches
           [mkCatch 1 (strip 5 0); mkCatch 2 (strip 3 1); mkCatch 3 (strip 4 2)] Inf
           [mkDelineation 2 (strip 5 0 ∪ strip 3 1) 8 100]).
  - apply three_reaches_int32.
  - vm_compute. reflexivity.
  - left.
Defined.

(** X17.  Which sites the table has, in a stream table whose reach ids
    lie within int32: a matched site has its row, once, when some reach
    upstream of its reach has a catchment polygon, and is left out
    without an error when none has; and the rows come in the order of
    the reach ids, the sites of one reach in the order they were matched
    in.  [P] is any test that tells the two kinds of site apart. *)
Theorem catch_delineate_sites (kd : matcher) (fuel : nat) (sites_shp : list Site)
    (rec_streams_shp : list Stream) (rec_catch_shp : list Catch) (max_distance : bound)
    (out : list Delineation) (P : SiteSeg → Prop) `{!∀ seg, Decision (P seg)} :
  (∀ s, s ∈ rec_streams_shp → in_int32 (NZREACH (attrs s))) →
  (∀ seg, seg ∈ kd sites_shp (make_mods mods rec_streams_shp) max_distance →
          P seg ↔ ∃ r, drains_to (make_mods mods rec_streams_shp) rec_catch_shp (seg_NZREACH seg) r) →
  catch_delineate kd fuel sites_shp rec_streams_shp rec_catch_shp max_distance = Ok out →
  out_site <$> out
  ≡ₚ seg_site <$> filter P (kd sites_shp (make_mods mods rec_streams_shp) max_distance) ∧
  StronglySorted Z.le (out_NZREACH <$> out).
Proof.
  intros H32 HP Hout.
  assert (∀ seg, seg ∈ kd sites_shp (make_mods mods rec_streams_shp) max_distance →
                 in_int32 (seg_NZREACH seg)) as Hrange.
  { intros seg Hseg.
    apply (matched_in_table _ _ _ _ _ _ _ _ Hout), list_elem_of_fmap in Hseg as (s & -> & Hs).
    by apply H32. }
  destruct (catch_delineate_Ok _ _ _ _ _ _ _ Hout) as (reaches & Hf & ->).
  set (rec_streams := make_mods mods rec_streams_shp) in *.
  set (pts_seg := kd sites_shp rec_streams max_distance) in *.
  pose proof (find_upstream_elem _ (NdArray _) _ _ _ eq_refl Hf) as Hel.
  assert (∀ Q `{!∀ seg, Decision (Q seg)},
            (∀ seg, seg ∈ pts_seg →
               Q seg ↔ ∃ u, drained rec_catch_shp reaches (seg_NZREACH seg) u) →
            filter Q pts_seg = filter P pts_seg) as Hfilter.
  { intros Q ? HQ. apply filter_ext_in. intros seg Hseg. rewrite HQ, HP by done.
    apply (drained_drains_to fuel _ _ _ _ _ H32 Hf), matched_id. by exists seg. }
  split.
  - rewrite agg_catch_extract. unfold merge_sites.
    rewrite list_fmap_bind, fmap_bind_comm.
    rewrite (bind_ext_in _ (λ k, seg_site <$> filter (λ seg, seg_NZREACH seg = k) pts_seg)).
    + rewrite <-fmap_bind_comm, bind_filter_Permutation by apply NoDup_group_keys.
      apply eq_subrelation; [apply _|]. f_equal. apply Hfilter.
      intros seg Hseg. by rewrite <-elem_of_shed_keys.
    + intros k Hk. simpl. rewrite <-list_fmap_compose.
      assert (int32 k = k) as ->; [|done].
      apply elem_of_shed_keys in Hk as (u & Hu & Hst & _).
      assert (k ∈ unique (seg_NZREACH <$> pts_seg)) as Hkid by (rewrite <-Hst; by apply Hel).
      apply matched_id in Hkid as (seg' & Hseg' & <-). by apply int32_id, Hrange.
  - unfold merge_sites. rewrite fmap_bind_comm.
    rewrite (bind_ext_in _
      (λ sh, (λ _, shed_start sh) <$> filter (λ s, seg_NZREACH s = shed_start sh) pts_seg)).
    + apply sorted_bind_key. rewrite agg_catch_keys; [apply group_keys_sorted|].
      intros rc (Hrc & _)%elem_of_extract_catch.
      apply Hel in Hrc as [(seg' & Hseg' & <-)%matched_id _]. by apply Hrange.
    + intros sh _. by rewrite <-list_fmap_compose.
Qed.

(** Reach 3 has no catchment polygon here and nothing flows into it: the
    site matched to it is left out, the site on reach 2 is kept. *)
Lemma catch_delineate_sites_witness :
  out_site <$> [mkDelineation 2 (strip 5 0 ∪ strip 3 1) 8 100]
  ≡ₚ seg_site <$> filter (λ seg, seg_NZREACH seg = 2)
       (fixed_matches [mkSiteSeg 103 (10, 9) 3; mkSiteSeg 100 (10, 1) 2] []
          (make_mods mods three_reaches) Inf) ∧
  StronglySorted Z.le (out_NZREACH <$> [mkDelineation 2 (strip 5 0 ∪ strip 3 1) 8 100]).
Proof.
  apply (catch_delineate_sites (fixed_matches [mkSiteSeg 103 (10, 9) 3; mkSiteSeg 100 (10, 1) 2])
           3 [] three_reaches [mkCatch 1 (strip 5 0); mkCatch 2 (strip 3 1)] Inf _
           (λ seg, seg_NZREACH seg = 2)).
  - apply three_reaches_int32.
  - intros seg Hseg. unfold fixed_matches in Hseg. rewrite make_mods_three_reaches.
    apply elem_of_cons in Hseg as [->|Hseg].
    { split; [done|]. intros (r & [k Hk]%upstream_level & Hc). exfalso.
      destruct k as [|[|k]].
      - change (level (attrs <$> three_reaches) 3 0) with [mkReach 3 25 30] in Hk.
        apply list_elem_of_singleton in Hk as ->. revert Hc. by_eval.
      - change (level (attrs <$> three_reaches) 3 1) with (@nil Reach) in Hk.
        by apply not_elem_of_nil in Hk.
      - unfold level in Hk.
        rewrite (iter_flowing_empty_le _ 2 (S (S k))) in Hk;
          [by apply not_elem_of_nil in Hk|lia|apply three_reaches_level_2]. }
    apply elem_of_cons in Hseg as [->|Hseg]; [|by apply not_elem_of_nil in Hseg].
    split; [intros _|done].
    exists (mkReach 2 20 30). split; [|by_eval].
    apply upstream_start; [by_eval|done].
  - vm_compute. reflexivity.
Defined.

Lemma upstream_trans rec i j r r' :
  NoDup (NZREACH <$> rec) →
  upstream rec i r → NZREACH r = j → upstream rec j r' → upstream rec i r'.
Proof.
  intros Hnd Hr Hid. induction 1 as [r' Hin Hj | r'' r' Hf _ IH].
  - rewrite (NoDup_fmap_eq NZREACH rec r' r); [done..| |congruence].
    by eapply upstream_in_rec.
  - by eapply upstream_step.
Qed.

Lemma upstream_has_start rec i r : upstream rec i r → ∃ s, s ∈ rec ∧ NZREACH s = i.
Proof. induction 1 as [r ?? | ??? _ IH]; [by exists r|done]. Qed.

(** X18.  In a stream table whose reach ids lie within int32, the reach
    of every row [catch_delineate] returns is a reach of the table, and
    the catchment of the row contains the catchment polygon of that
    reach. *)
Theorem catch_delineate_own_reach (kd : matcher) (fuel : nat) (sites_shp : list Site)
    (rec_streams_shp : list Stream) (rec_catch_shp : list Catch) (max_distance : bound)
    (out : list Delineation) (row : Delineation) :
  (∀ s, s ∈ rec_streams_shp → in_int32 (NZREACH (attrs s))) →
  catch_delineate kd fuel sites_shp rec_streams_shp rec_catch_shp max_distance = Ok out →
  row ∈ out →
  out_NZREACH row ∈ NZREACH ∘ attrs <$> rec_streams_shp ∧
  catchment rec_catch_shp (out_NZREACH row) ⊆ out_geometry row.
Proof.
  intros H32 Hout Hrow.
  destruct (catch_delineate_row _ _ _ _ _ _ _ H32 Hout row Hrow)
    as ((seg & Hseg & _ & Hid) & _ & Hg).
  pose proof (matched_in_table _ _ _ _ _ _ _ _ Hout Hseg) as Hin. rewrite Hid in Hin.
  split; [done|]. intros x Hx. apply Hg.
  rewrite <-(make_mods_ids mods), list_fmap_compose in Hin.
  apply list_elem_of_fmap in Hin as (s & Hs & Hsin).
  exists s. rewrite <-Hs. split; [by apply upstream_start|done].
Qed.

Lemma catch_delineate_own_reach_witness :
  out_NZREACH (mkDelineation 2 (strip 5 0 ∪ strip 3 1) 8 100)
    ∈ NZREACH ∘ attrs <$> three_reaches ∧
  catchment [mkCatch 1 (strip 5 0); mkCatch 2 (strip 3 1); mkCatch 3 (strip 4 2)]
    (out_NZREACH (mkDelineation 2 (strip 5 0 ∪ strip 3 1) 8 100))
    ⊆ out_geometry (mkDelineation 2 (strip 5 0 ∪ strip 3 1) 8 100).
Proof.
  apply (catch_delineate_own_reach (fixed_matches [mkSiteSeg 100 (10, 1) 2]) 3 [] three_reaches
           [mkCatch 1 (strip 5 0); mkCatch 2 (strip 3 1); mkCatch 3 (strip 4 2)] Inf
           [mkDelineation 2 (strip 5 0 ∪ strip 3 1) 8 100]).
  - apply three_reaches_int32.
  - vm_compute. reflexivity.
  - left.
Defined.

(** X19.  Catchments nest along the flow: in a stream table whose reach
    ids are distinct and lie within int32, when the reach of one row is
    upstream of the reach of another, the catchment of the first lies
    within the catchment of the second and its area is no larger. *)
Theorem catch_delineate_nested (kd : matcher) (fuel : nat) (sites_shp : list Site)
    (rec_streams_shp : list Stream) (rec_catch_shp : list Catch) (max_distance : bound)
    (out : list Delineation) (row_a row_b : Delineation) (r_a : Reach) :
  NoDup (NZREACH ∘ attrs <$> rec_streams_shp) →
  (∀ s, s ∈ rec_streams_shp → in_int32 (NZREACH (attrs s))) →
  catch_delineate kd fuel sites_shp rec_streams_shp rec_catch_shp max_distance = Ok out →
  row_a ∈ out → row_b ∈ out →
  upstream (attrs <$> make_mods mods rec_streams_shp) (out_NZREACH row_b) r_a →
  NZREACH r_a = out_NZREACH row_a →
  out_geometry row_a ⊆ out_geometry row_b ∧ out_area row_a ≤ out_area row_b.
Proof.
  intros Hnd H32 Hout Ha Hb Hup Hid.
  destruct (catch_delineate_row _ _ _ _ _ _ _ H32 Hout row_a Ha) as (_ & Harea_a & Hga).
  destruct (catch_delineate_row _ _ _ _ _ _ _ H32 Hout row_b Hb) as (_ & Harea_b & Hgb).
  assert (out_geometry row_a ⊆ out_geometry row_b) as Hsub.
  { intros x (r & Hr & Hx)%Hga. apply Hgb. exists r. split; [|done].
    apply (upstream_trans _ _ (out_NZREACH row_a) r_a); [|done..].
    by rewrite <-list_fmap_compose, make_mods_ids. }
  split; [done|]. rewrite Harea_a, Harea_b. unfold area.
  apply Nat2Z.inj_le. by apply subseteq_size.
Qed.

Lemma catch_delineate_nested_witness :
  out_geometry (mkDelineation 1 (strip 5 0) 5 101)
    ⊆ out_geometry (mkDelineation 2 (strip 5 0 ∪ strip 3 1) 8 100) ∧
  out_area (mkDelineation 1 (strip 5 0) 5 101)
    ≤ out_area (mkDelineation 2 (strip 5 0 ∪ strip 3 1) 8 100).
Proof.
  apply (catch_delineate_nested
           (fixed_matches [mkSiteSeg 100 (10, 1) 2; mkSiteSeg 101 (0, 0) 1]) 3 [] three_reaches
           [mkCatch 1 (strip 5 0); mkCatch 2 (strip 3 1); mkCatch 3 (strip 4 2)] Inf
           [mkDelineation 1 (strip 5 0) 5 101; mkDelineation 2 (strip 5 0 ∪ strip 3 1) 8 100]
           _ _ (mkReach 1 10 20)).
  - vm_compute. repeat constructor; set_solver.
  - apply three_reaches_int32.
  - vm_compute. reflexivity.
  - left.
  - right. left.
  - apply (upstream_step _ _ (mkReach 1 10 20) (mkReach 2 20 30)).
    + split; [by_eval|done].
    + apply upstream_start; [by_eval|done].
  - done.
Defined.
